(** * poopfuck: lexer, parser and executor of [src/poop.js]

    A shallow embedding of the three stages of the interpreter
    ([tokenize], [parse], [PoopFucker.do]) and of [runCode], followed by
    the properties of the specification that were checked against them.

    Conventions of the embedding.
    - A JavaScript string is the list of its UTF-16 code units ([list Z]).
      Every character the program names lies in the basic plane, so one
      character is one code unit.
    - The one-glyph strings that [tokenize] pushes are represented by the
      [marker] they spell.
    - A JavaScript Number that holds an integer is a [Z]; this is exact
      below 2^53 in magnitude.  The other values a tape slot can hold
      ([NaN], [null], [undefined]) are constructors of [jsval].
    - Loops of the source that may run forever are given fuel; running
      out of fuel is the result [NoFuel], never an answer of the
      program. *)

From Stdlib Require Import ZifyNat.
From stdpp Require Import base numbers option list gmap.

Open Scope Z_scope.

(** ** Shared data model *)

(** The three glyphs a token can end with: [mA] is U+FF01 (fullwidth
    exclamation mark), [mB] is U+FF1F (fullwidth question mark) and [mC]
    is U+3002 (ideographic full stop). *)
Inductive marker : Type := mA | mB | mC.

Global Instance marker_eq_dec : EqDecision marker.
Proof. solve_decision. Defined.

Definition glyph (m : marker) : Z :=
  match m with
  | mA => 0xFF01
  | mB => 0xFF1F
  | mC => 0x3002
  end.

(** The errors of the three stages, named as in the specification; each
    stands for one [throw new Error(...)] of the source. *)
Inductive error : Type :=
  | UnclosedComment
  | InvalidToken (c : Z) (errorAt : nat)
  | OddTokenCount
  | InvalidInstructionPair
  | UnsupportedInput
  | UnmatchedLoopEnd
  | UndefinedInstruction.

(** What a call comes back with: a value, a thrown error, or no answer
    within the fuel given. *)
Inductive outcome (T : Type) : Type :=
  | Return (v : T)
  | Throw (e : error)
  | NoFuel.
Arguments Return {T} v.
Arguments Throw {T} e.
Arguments NoFuel {T}.

(** ** Lexer *)

Module Lexer.

(** [/\s/] of ECMAScript on one code unit: white space and line
    terminators. *)
Definition is_space (c : Z) : bool :=
  bool_decide (c ∈ [0x09; 0x0A; 0x0B; 0x0C; 0x0D; 0x20; 0xA0; 0x1680;
                     0x2028; 0x2029; 0x202F; 0x205F; 0x3000; 0xFEFF])
  || ((0x2000 <=? c) && (c <=? 0x200A)).

(** [input.substr(start, len)] *)
Definition substr (input : list Z) (start len : nat) : list Z :=
  take len (drop start input).

(** U+3046 U+3093 U+3061, the three characters every token starts with *)
Definition keyword : list Z := [0x3046; 0x3093; 0x3061].

Definition validTokens : list (list Z) :=
  [keyword ++ [glyph mA]; keyword ++ [glyph mB]; keyword ++ [glyph mC]].

(** The marker spelled by one code unit, if any. *)
Definition marker_of_glyph (c : Z) : option marker :=
  if decide (c = glyph mA) then Some mA
  else if decide (c = glyph mB) then Some mB
  else if decide (c = glyph mC) then Some mC
  else None.

(** [token[3]] as a marker when [validTokens.includes(token)], [None]
    when the token is not a valid one. *)
Definition valid_token (token : list Z) : option marker :=
  if bool_decide (token ∈ validTokens) then token !! 3%nat ≫= marker_of_glyph
  else None.

(** The table the error branch checks each character against:
    [[["u"], ["n"], ["chi"], ["!", "?", "."]][i]]. *)
Definition allowed (i : nat) : list Z :=
  match i with
  | 0%nat => [0x3046]
  | 1%nat => [0x3093]
  | 2%nat => [0x3061]
  | 3%nat => [glyph mA; glyph mB; glyph mC]
  | _ => []
  end.

(** [token.split("").forEach((c, i) => ...)]: the first character, with
    its index, that is not allowed in its place; [None] when the callback
    throws for no character. *)
Fixpoint first_invalid (i : nat) (token : list Z) : option (nat * Z) :=
  match token with
  | [] => None
  | c :: token' =>
      if bool_decide (c ∈ allowed i) then first_invalid (S i) token'
      else Some (i, c)
  end.

(** The inner [while] of the comment branch, entered with [current]
    already advanced: it stops at the first [current] where the closer
    starts, and throws when [current + 2 >= input.length] without one.
    [n] bounds the number of tests; [length input] is always enough. *)
Fixpoint find_closer (n : nat) (input : list Z) (current : nat) : outcome nat :=
  if decide (substr input current 2 = [0x2A; 0x2F]) then Return current
  else if (length input <=? current + 2)%nat then Throw UnclosedComment
  else match n with
       | O => NoFuel
       | S n' => find_closer n' input (S current)
       end.

(** One turn of the outer [while]: either the loop goes on with a new
    [current] and [tokens], or the call is over. *)
Inductive turn : Type :=
  | Next (current : nat) (tokens : list marker)
  | Stop (r : outcome (list marker)).

Definition tokenize_turn (input : list Z) (current : nat) (tokens : list marker) : turn :=
  if negb (current <? length input)%nat then Stop (Return tokens)
  else if from_option is_space false (input !! current) then Next (S current) tokens
  else if decide (substr input current 2 = [0x2F; 0x2A]) then
    match find_closer (length input) input (S (S current)) with
    | Return current' => Next (current' + 2)%nat tokens
    | Throw e => Stop (Throw e)
    | NoFuel => Stop NoFuel
    end
  else
    let token := substr input current 4 in
    match valid_token token with
    | Some m => Next (current + 4)%nat (tokens ++ [m])
    | None =>
        match first_invalid 0 token with
        | Some (i, c) => Stop (Throw (InvalidToken c (current + i + 1)%nat))
        | None => Next current tokens
        end
    end.

Fixpoint tokenize_from (fuel : nat) (input : list Z) (current : nat) (tokens : list marker)
  : outcome (list marker) :=
  match fuel with
  | O => NoFuel
  | S fuel' =>
      match tokenize_turn input current tokens with
      | Next current' tokens' => tokenize_from fuel' input current' tokens'
      | Stop r => r
      end
  end.

(** [tokenize(input)], with [fuel] turns of the outer loop. *)
Definition tokenize (fuel : nat) (input : list Z) : outcome (list marker) :=
  tokenize_from fuel input 0 [].

(** The source text of a marker sequence: one valid token per marker. *)
Definition token_of (m : marker) : list Z := keyword ++ [glyph m].

Definition source_of (ms : list marker) : list Z := concat (token_of <$> ms).

End Lexer.

(** ** Parser *)

(** The value of a [Simple] node: the string [tokens[current] +
    tokens[++current]].  The second component is [None] when the second
    read is past the end of the array (JavaScript then appends the text
    of [undefined]); [parse] refuses arrays of odd length, so this does
    not happen in a tree it returns. *)
Definition instruction : Type := marker * option marker.

(** [{ type: "instruction", value }] and [{ type: "loop", value }] *)
#[warnings="-register-all"]
Inductive node : Type :=
  | Simple (value : instruction)
  | Loop (value : list node).

Module definedInstructions.
Definition INCREMENT_POINTER : instruction := (mC, Some mB).
Definition DECREMENT_POINTER : instruction := (mB, Some mC).
Definition INCREMENT_VALUE : instruction := (mC, Some mC).
Definition DECREMENT_VALUE : instruction := (mA, Some mA).
Definition IN : instruction := (mC, Some mA).
Definition OUT : instruction := (mA, Some mC).
Definition LOOP_START : instruction := (mA, Some mB).
Definition LOOP_END : instruction := (mB, Some mA).
End definedInstructions.

Global Instance instruction_eq_dec : EqDecision instruction.
Proof. solve_decision. Defined.

Module Parser.
Import definedInstructions.

(** What [parseRecursively] hands back: its [instructions], and the two
    variables [current] and [loopDepth] it shares with its caller. *)
Definition block : Type := list node * nat * nat.

(** [parseRecursively()], one unit of fuel per turn of its [while] and
    per nested call.  [instructions] is the array built so far by the
    running call.  The test [current < tokens.length] is the first
    [match]: the read [tokens !! current] is [None] exactly when it
    fails. *)
Fixpoint parseRecursively (fuel : nat) (tokens : list marker)
    (current loopDepth : nat) (instructions : list node) : outcome block :=
  match fuel with
  | O => NoFuel
  | S fuel' =>
      match tokens !! current with
      | None => Return (instructions, current, loopDepth)
      | Some m =>
          let instruction := (m, tokens !! S current) in
          let current := S current in
          if decide (instruction = (mB, Some mB)) then Throw InvalidInstructionPair
          else if decide (instruction = IN) then Throw UnsupportedInput
          else if decide (instruction = LOOP_END) then
            if (0 <? loopDepth)%nat
            then Return (instructions, current, (loopDepth - 1)%nat)
            else Throw UnmatchedLoopEnd
          else if decide (instruction = LOOP_START) then
            match parseRecursively fuel' tokens (S current) (S loopDepth) [] with
            | Return (value, current', loopDepth') =>
                parseRecursively fuel' tokens (S current') loopDepth'
                  (instructions ++ [Loop value])
            | Throw e => Throw e
            | NoFuel => NoFuel
            end
          else
            parseRecursively fuel' tokens (S current) loopDepth
              (instructions ++ [Simple instruction])
      end
  end.

(** [parse(tokens)].  The fuel is enough for every array
    ([parse_total] below). *)
Definition parse (tokens : list marker) : outcome (list node) :=
  if negb (length tokens mod 2 =? 0)%nat then Throw OddTokenCount
  else
    match parseRecursively (S (length tokens)) tokens 0 0 [] with
    | Return (instructions, _, _) => Return instructions
    | Throw e => Throw e
    | NoFuel => NoFuel
    end.

(** *** The marker sequence of a tree *)

Definition encode_pair (value : instruction) : list marker :=
  match value with
  | (a, Some b) => [a; b]
  | (a, None) => [a]
  end.

Fixpoint encode_node (n : node) : list marker :=
  match n with
  | Simple value => encode_pair value
  | Loop value => [mA; mB] ++ concat (map encode_node value) ++ [mB; mA]
  end.

Definition encode (instructions : list node) : list marker :=
  concat (map encode_node instructions).

(** The marker sequence of a program that ends inside loops:
    [instructions] at top level, then one unmatched LoopStart per element
    of [opened], each followed by what was written inside it. *)
Fixpoint encode_open (instructions : list node) (opened : list (list node)) : list marker :=
  match opened with
  | [] => encode instructions
  | body :: opened' => encode instructions ++ [mA; mB] ++ encode_open body opened'
  end.

(** The tree such a program stands for when every loop left open is
    closed at the end of the input. *)
Fixpoint close_open (instructions : list node) (opened : list (list node)) : list node :=
  match opened with
  | [] => instructions
  | body :: opened' => instructions ++ [Loop (close_open body opened')]
  end.

(** The five pairs the executor carries out. *)
Definition executable (value : instruction) : bool :=
  bool_decide (value ∈ [INCREMENT_POINTER; DECREMENT_POINTER; INCREMENT_VALUE;
                        DECREMENT_VALUE; OUT]).

(** Every [Simple] node of the tree, at any depth, satisfies [P]. *)
Fixpoint all_simple (P : instruction -> bool) (n : node) : bool :=
  match n with
  | Simple value => P value
  | Loop value => forallb (all_simple P) value
  end.

(** Number of marker pairs a tree was read from: one per [Simple] node,
    and the two pairs LoopStart and LoopEnd per [Loop] node. *)
Fixpoint pairs_node (n : node) : nat :=
  match n with
  | Simple _ => 1%nat
  | Loop value => (2 + list_sum (map pairs_node value))%nat
  end.

Definition pairs (instructions : list node) : nat := list_sum (map pairs_node instructions).

(** Number of nodes of a tree, loops included. *)
Fixpoint count_node (n : node) : nat :=
  match n with
  | Simple _ => 1%nat
  | Loop value => (1 + list_sum (map count_node value))%nat
  end.

Definition count (instructions : list node) : nat := list_sum (map count_node instructions).

(** A tree the parser can have built: every [Simple] node is one of the
    five executable pairs. *)
Definition parsed_shape (instructions : list node) : bool :=
  forallb (all_simple executable) instructions.

(** The call of [parseRecursively] in the given state of [current],
    [loopDepth] and [instructions] comes back with [r]. *)
Definition parses (tokens : list marker) (current loopDepth : nat)
    (instructions : list node) (r : outcome block) : Prop :=
  exists fuel, parseRecursively fuel tokens current loopDepth instructions = r
               /\ r <> NoFuel.

End Parser.

(** ** Executor *)

Module Executor.
Import definedInstructions.

(** The values a slot of [memory] can hold or a read of it can give. *)
Inductive jsval : Type :=
  | JNum (z : Z)
  | JNaN
  | JNull
  | JUndefined.

Global Instance jsval_eq_dec : EqDecision jsval.
Proof. solve_decision. Defined.

(** The array [memory]: [elems] are its elements, indices [0] to
    [length - 1]; [props] holds what was stored under a negative key,
    which JavaScript keeps as an ordinary property outside the
    elements. *)
Record array : Type := mkArray {
  elems : list jsval;
  props : gmap Z jsval
}.

(** The fields of a [PoopFucker], and what it has written so far:
    [stdout] the code units passed to [process.stdout.write], [warnings]
    the number of calls of [console.warn]. *)
Record runtime : Type := mkRuntime {
  pointer : Z;
  memory : array;
  stdout : list Z;
  warnings : nat
}.

(** [new PoopFucker()] *)
Definition fresh : runtime :=
  {| pointer := 0;
     memory := {| elems := [JNum 0; JNull]; props := ∅ |};
     stdout := [];
     warnings := 0 |}.

(** A runtime whose only cell holds 3. *)
Definition cell3 : runtime :=
  {| pointer := 0;
     memory := {| elems := [JNum 3; JNull]; props := ∅ |};
     stdout := [];
     warnings := 0 |}.

(** [memory[p]]: a read outside the elements, or of a key never
    stored, gives [undefined]. *)
Definition mem_get (m : array) (p : Z) : jsval :=
  if 0 <=? p then default JUndefined (elems m !! Z.to_nat p)
  else default JUndefined (props m !! p).

(** [memory[p] = v]: a write past the last element extends the array,
    the slots in between reading as [undefined]. *)
Definition mem_set (m : array) (p : Z) (v : jsval) : array :=
  if 0 <=? p then
    let i := Z.to_nat p in
    if (i <? length (elems m))%nat
    then {| elems := <[i := v]> (elems m); props := props m |}
    else {| elems := elems m ++ replicate (i - length (elems m)) JUndefined ++ [v];
            props := props m |}
  else {| elems := elems m; props := <[p := v]> (props m) |}.

(** [memory.push(v)] *)
Definition mem_push (m : array) (v : jsval) : array :=
  {| elems := elems m ++ [v]; props := props m |}.

(** [x++] and [x--] on a slot: the slot becomes [ToNumber(x) + 1] or
    [ToNumber(x) - 1]; [null] converts to [0], [undefined] to [NaN]. *)
Definition incr (v : jsval) : jsval :=
  match v with
  | JNum z => JNum (z + 1)
  | JNull => JNum 1
  | JNaN | JUndefined => JNaN
  end.

Definition decr (v : jsval) : jsval :=
  match v with
  | JNum z => JNum (z - 1)
  | JNull => JNum (-1)
  | JNaN | JUndefined => JNaN
  end.

(** The code unit of [String.fromCharCode(v)]: [ToUint16(ToNumber(v))]. *)
Definition fromCharCode (v : jsval) : Z :=
  match v with
  | JNum z => z mod 65536
  | JNaN | JNull | JUndefined => 0
  end.

(** The body of the [switch] on [instruction.value]. *)
Definition exec (value : instruction) (st : runtime) : runtime + error :=
  if decide (value = INCREMENT_POINTER) then
    let pointer := pointer st + 1 in
    let memory :=
      if decide (mem_get (memory st) pointer = JNull)
      then mem_push (mem_set (memory st) pointer (JNum 0)) JNull
      else memory st in
    inl {| pointer := pointer; memory := memory;
              stdout := stdout st; warnings := warnings st |}
  else if decide (value = DECREMENT_POINTER) then
    inl {| pointer := pointer st - 1; memory := memory st;
              stdout := stdout st; warnings := warnings st |}
  else if decide (value = INCREMENT_VALUE) then
    inl {| pointer := pointer st;
              memory := mem_set (memory st) (pointer st) (incr (mem_get (memory st) (pointer st)));
              stdout := stdout st; warnings := warnings st |}
  else if decide (value = DECREMENT_VALUE) then
    inl {| pointer := pointer st;
              memory := mem_set (memory st) (pointer st) (decr (mem_get (memory st) (pointer st)));
              stdout := stdout st; warnings := warnings st |}
  else if decide (value = IN) then
    inl {| pointer := pointer st; memory := memory st;
              stdout := stdout st; warnings := S (warnings st) |}
  else if decide (value = OUT) then
    inl {| pointer := pointer st; memory := memory st;
              stdout := stdout st ++ [fromCharCode (mem_get (memory st) (pointer st))];
              warnings := warnings st |}
  else inr UndefinedInstruction.

(** The test of the [while]: [this.memory[this.pointer] !== 0]. *)
Definition nonzero (st : runtime) : bool :=
  bool_decide (mem_get (memory st) (pointer st) ≠ JNum 0).

(** How a run of [do] ends. *)
Inductive status : Type :=
  | Finished
  | Threw (e : error)
  | OutOfFuel.

(** [do(instructions)]: the [forEach] over the nodes and the [while] of
    a loop node, one unit of fuel per node visited and per test of a
    loop.  The runtime returned is the one reached when the run ended,
    was cut short by fuel, or threw. *)
Fixpoint PoopFucker_do (fuel : nat) (instructions : list node) (st : runtime)
  : status * runtime :=
  match fuel with
  | O => (OutOfFuel, st)
  | S fuel' =>
      match instructions with
      | [] => (Finished, st)
      | Loop value :: rest =>
          if nonzero st then
            match PoopFucker_do fuel' value st with
            | (Finished, st') => PoopFucker_do fuel' (Loop value :: rest) st'
            | stopped => stopped
            end
          else PoopFucker_do fuel' rest st
      | Simple value :: rest =>
          match exec value st with
          | inl st' => PoopFucker_do fuel' rest st'
          | inr e => (Threw e, st)
          end
      end
  end.

(** [n] complete runs of the body of a loop, each entered because the
    test held, take [st] to [st']. *)
Inductive iterations (value : list node) : nat -> runtime -> runtime -> Prop :=
  | iterations_O st : iterations value 0 st st
  | iterations_S n st st' st'' fuel :
      nonzero st = true ->
      PoopFucker_do fuel value st = (Finished, st') ->
      iterations value n st' st'' ->
      iterations value (S n) st st''.

(** The shape [memory] and [pointer] keep: the elements are the integer
    cells [cells], at least one, followed by one [null]; the pointer is
    at most the index of the last cell; nothing stored under a negative
    key is [null]. *)
Definition tape_ok (cells : list Z) (st : runtime) : Prop :=
  cells <> [] /\
  elems (memory st) = (JNum <$> cells) ++ [JNull] /\
  pointer st < Z.of_nat (length cells) /\
  (forall k v, props (memory st) !! k = Some v -> v <> JNull).

End Executor.

(** ** The pipeline *)

Module Driver.
Import Lexer Parser Executor.

(** How [runCode] ends: in the lexer, in the parser, or with the run of
    a [PoopFucker] that was created after both succeeded. *)
Inductive run : Type :=
  | LexFailed (r : outcome (list marker))
  | ParseFailed (r : outcome (list node))
  | Ran (s : status) (st : runtime).

(** [runCode(code)] *)
Definition runCode (lex_fuel do_fuel : nat) (code : list Z) : run :=
  match tokenize lex_fuel code with
  | Return tokens =>
      match parse tokens with
      | Return instructions =>
          let (s, st) := PoopFucker_do do_fuel instructions fresh in Ran s st
      | r => ParseFailed r
      end
  | r => LexFailed r
  end.

(** What a run of [runCode] wrote to standard output. *)
Definition written (r : run) : list Z :=
  match r with
  | Ran _ st => stdout st
  | _ => []
  end.

End Driver.

(** ** Source texts *)

Module Text.
Import Lexer.

(** What a source text is made of between its first and last character:
    white space, comments and valid tokens. *)
Inductive lexeme : Type :=
  | Space (c : Z)
  | Comment (body : list Z)
  | Token (m : marker).

(** The characters of one lexeme; a comment is its body between the
    opener U+002F U+002A and the closer U+002A U+002F. *)
Definition render_lexeme (x : lexeme) : list Z :=
  match x with
  | Space c => [c]
  | Comment body => [0x2F; 0x2A] ++ body ++ [0x2A; 0x2F]
  | Token m => token_of m
  end.

Definition render (xs : list lexeme) : list Z := concat (render_lexeme <$> xs).

(** The markers spelled by the tokens of a text, in order. *)
Fixpoint markers (xs : list lexeme) : list marker :=
  match xs with
  | [] => []
  | Token m :: xs' => m :: markers xs'
  | _ :: xs' => markers xs'
  end.

(** The closer U+002A U+002F occurs somewhere in [body]. *)
Fixpoint has_closer (body : list Z) : bool :=
  match body with
  | a :: (b :: _) as body' => ((a =? 0x2A) && (b =? 0x2F)) || has_closer body'
  | _ => false
  end.

(** A white-space lexeme is one white-space character, and the body of a
    comment does not hold the closer. *)
Definition well_formed (x : lexeme) : bool :=
  match x with
  | Space c => is_space c
  | Comment body => negb (has_closer body)
  | Token _ => true
  end.

End Text.

(** ** Loops left open *)

Module Unparse.

(** The LoopEnd pairs that close [k] loops. *)
Definition closers (k : nat) : list marker := concat (replicate k [mB; mA]).

End Unparse.

(** ** The script around [runCode] *)

Module Script.
Import Lexer Parser Executor Driver.

(** The three errors the script throws itself: no file name given, the
    extension test, and the [catch] around reading and running the
    file. *)
Inductive message : Type :=
  | NoFilename
  | BadExtension
  | CouldNotFindFile (filename : list Z).

(** How the process ends, with what it has written to standard output:
    it exits normally, dies of an uncaught error, or is still running
    when the fuel is spent. *)
Inductive ending : Type :=
  | Exited (out : list Z)
  | Failed (m : message) (out : list Z)
  | Hung (out : list Z).

Section Node.

(** The two functions of Node.js the script calls: [path.extname], and
    [fs.readFileSync(filename, "utf-8")], which is [None] when it
    throws. *)
Variable extname : list Z -> list Z.
Variable readFileSync : list Z -> option (list Z).

(** The statements of the script outside the functions, run on
    [process.argv].  The test [process.argv.length < 3] is the [match]
    on [argv !! 2]: the read is [None] exactly when the test holds.
    Of the ways [runCode] can end without a runtime, only a thrown
    error and a lexer out of fuel occur. *)
Definition main (lex_fuel do_fuel : nat) (argv : list (list Z)) : ending :=
  match argv !! 2%nat with
  | None => Failed NoFilename []
  | Some filename =>
      if decide (extname filename = [0x70; 0x6F; 0x6F; 0x70])
      then Failed BadExtension []
      else
        match readFileSync filename with
        | None => Failed (CouldNotFindFile filename) []
        | Some code =>
            match runCode lex_fuel do_fuel code with
            | LexFailed (Throw _) | ParseFailed (Throw _) =>
                Failed (CouldNotFindFile filename) []
            | LexFailed _ | ParseFailed _ => Hung []
            | Ran Finished st => Exited (stdout st)
            | Ran (Threw _) st => Failed (CouldNotFindFile filename) (stdout st)
            | Ran OutOfFuel st => Hung (stdout st)
            end
        end
  end.

End Node.

End Script.

(** * Properties *)

(** ** Lexer *)

Module LexerFacts.
Import Lexer.

Lemma tokenize_from_S fuel input current tokens :
  tokenize_from (S fuel) input current tokens =
  match tokenize_turn input current tokens with
  | Next current' tokens' => tokenize_from fuel input current' tokens'
  | Stop r => r
  end.
Proof. reflexivity. Qed.

(** A turn that leaves [current] and [tokens] as they were is repeated
    for ever. *)
Lemma tokenize_from_stuck input current tokens :
  tokenize_turn input current tokens = Next current tokens ->
  forall fuel, tokenize_from fuel input current tokens = NoFuel.
Proof.
  intros Hturn fuel. induction fuel as [|fuel IH]; [reflexivity|].
  rewrite tokenize_from_S, Hturn. exact IH.
Qed.

Lemma substr_at (pre s : list Z) len :
  substr (pre ++ s) (length pre) len = take len s.
Proof. unfold substr. by rewrite drop_app_length. Qed.

Lemma valid_token_of m : valid_token (token_of m) = Some m.
Proof. by destruct m. Qed.

(** The turn taken when [current] is at or past the end. *)
Lemma tokenize_turn_end input current tokens :
  (length input <= current)%nat ->
  tokenize_turn input current tokens = Stop (Return tokens).
Proof.
  intros Hle. unfold tokenize_turn.
  by replace (current <? length input)%nat with false
    by (symmetry; apply Nat.ltb_ge; lia).
Qed.

(** The turn taken at the start of a valid token. *)
Lemma tokenize_turn_token pre m rest tokens :
  tokenize_turn (pre ++ token_of m ++ rest) (length pre) tokens =
  Next (length pre + 4) (tokens ++ [m]).
Proof.
  unfold tokenize_turn.
  assert (Hlt : (length pre <? length (pre ++ token_of m ++ rest))%nat = true).
  { apply Nat.ltb_lt. rewrite !length_app. destruct m; simpl; lia. }
  rewrite Hlt. simpl negb. cbv iota.
  rewrite !substr_at.
  unfold token_of, keyword. simpl app.
  rewrite list_lookup_middle by reflexivity.
  destruct m; reflexivity.
Qed.

(** The turn taken where the input ends inside a token: nothing is
    thrown and nothing moves. *)
Lemma tokenize_turn_truncated pre t tokens :
  t ∈ [[0x3046]; [0x3046; 0x3093]; [0x3046; 0x3093; 0x3061]] ->
  tokenize_turn (pre ++ t) (length pre) tokens = Next (length pre) tokens.
Proof.
  intros Ht. unfold tokenize_turn.
  assert (Hlt : (length pre <? length (pre ++ t))%nat = true).
  { apply Nat.ltb_lt. rewrite length_app.
    set_unfold. destruct Ht as [->|[->|[->|[]]]]; simpl; lia. }
  rewrite Hlt. simpl negb. cbv iota.
  rewrite !substr_at.
  set_unfold. destruct Ht as [->|[->|[->|[]]]];
    (rewrite list_lookup_middle by reflexivity); reflexivity.
Qed.

Lemma source_of_cons m ms : source_of (m :: ms) = token_of m ++ source_of ms.
Proof. reflexivity. Qed.

Lemma length_source_of ms : length (source_of ms) = (4 * length ms)%nat.
Proof.
  induction ms as [|m ms IH]; [reflexivity|].
  rewrite source_of_cons, length_app, IH. destruct m; simpl; lia.
Qed.

(** Scanning the tokens of [ms] appends [ms] to what was scanned. *)
Lemma tokenize_from_source_of ms : forall fuel pre rest tokens,
  tokenize_from (length ms + fuel) (pre ++ source_of ms ++ rest) (length pre) tokens =
  tokenize_from fuel (pre ++ source_of ms ++ rest) (length pre + 4 * length ms)
    (tokens ++ ms).
Proof.
  induction ms as [|m ms IH]; intros fuel pre rest tokens.
  - simpl. by rewrite Nat.add_0_r, app_nil_r.
  - rewrite source_of_cons. simpl length. rewrite Nat.add_succ_l, tokenize_from_S.
    rewrite <- (app_assoc (token_of m)), tokenize_turn_token.
    specialize (IH fuel (pre ++ token_of m) rest (tokens ++ [m])).
    rewrite <- !app_assoc in IH. rewrite length_app in IH.
    replace (length (token_of m)) with 4%nat in IH by (by destruct m).
    rewrite IH. f_equal. lia.
Qed.

(** The lexer reads back the markers of a text made of valid tokens
    only. *)
Lemma tokenize_source_of ms fuel :
  (length ms < fuel)%nat -> tokenize fuel (source_of ms) = Return ms.
Proof.
  intros Hfuel. unfold tokenize.
  replace fuel with (length ms + S (fuel - length ms - 1))%nat by lia.
  pose proof (tokenize_from_source_of ms (S (fuel - length ms - 1)) [] [] []) as H.
  simpl app in H. rewrite app_nil_r in H. simpl length in H. rewrite H.
  rewrite tokenize_from_S, tokenize_turn_end; [reflexivity|].
  rewrite length_source_of. lia.
Qed.

(** A text that ends inside a token keeps the lexer turning without
    end, whatever valid tokens come before. *)
Lemma tokenize_truncated ms t :
  t ∈ [[0x3046]; [0x3046; 0x3093]; [0x3046; 0x3093; 0x3061]] ->
  forall fuel, tokenize fuel (source_of ms ++ t) = NoFuel.
Proof.
  intros Ht fuel. unfold tokenize.
  destruct (decide (fuel <= length ms)%nat) as [Hle|Hgt].
  - (* not even the valid tokens are through *)
    rewrite <- (take_drop fuel ms).
    assert (Hlen : length (take fuel ms) = fuel) by (rewrite length_take; lia).
    unfold source_of. rewrite fmap_app, concat_app, <- app_assoc.
    fold (source_of (take fuel ms)).
    pose proof (tokenize_from_source_of (take fuel ms) 0 []
                  (concat (token_of <$> drop fuel ms) ++ t) []) as H.
    rewrite Hlen, Nat.add_0_r in H. simpl app in H. simpl length in H.
    rewrite H. reflexivity.
  - replace fuel with (length ms + (fuel - length ms))%nat by lia.
    pose proof (tokenize_from_source_of ms (fuel - length ms) [] t []) as H.
    simpl app in H. simpl length in H. rewrite H.
    apply tokenize_from_stuck.
    pose proof (tokenize_turn_truncated (source_of ms) t ms Ht) as Hturn.
    rewrite length_source_of in Hturn. exact Hturn.
Qed.

(** No valid token has a character out of place. *)
Lemma valid_token_first_invalid token m :
  valid_token token = Some m -> first_invalid 0 token = None.
Proof.
  unfold valid_token. case_bool_decide as Hin; [|done]. intros _.
  unfold validTokens in Hin. set_unfold. by destruct Hin as [->|[->|[->|[]]]].
Qed.

Lemma first_invalid_lookup token : forall k i c,
  first_invalid k token = Some (i, c) ->
  (k <= i)%nat /\ token !! (i - k)%nat = Some c.
Proof.
  induction token as [|c0 token IH]; intros k i c H; [done|].
  simpl in H. case_bool_decide.
  - apply IH in H as [Hle Hc]. split; [lia|].
    replace (i - k)%nat with (S (i - S k)) by lia. done.
  - injection H as <- <-. split; [lia|]. by rewrite Nat.sub_diag.
Qed.

(** The turn taken at a character that is not white space, does not
    open a comment, and starts four characters of which one is out of
    place: the first such character is reported, with its position
    counted from one. *)
Lemma tokenize_turn_invalid input current tokens i c :
  (current < length input)%nat ->
  from_option is_space false (input !! current) = false ->
  substr input current 2 <> [0x2F; 0x2A] ->
  first_invalid 0 (substr input current 4) = Some (i, c) ->
  tokenize_turn input current tokens = Stop (Throw (InvalidToken c (current + i + 1)))
  /\ input !! (current + i)%nat = Some c.
Proof.
  intros Hlt Hspace Hcomment Hinvalid. unfold tokenize_turn.
  replace (current <? length input)%nat with true by (symmetry; by apply Nat.ltb_lt).
  simpl negb. cbv iota. rewrite Hspace.
  destruct (decide (substr input current 2 = [47; 42])); [done|].
  cbv zeta.
  destruct (valid_token (substr input current 4)) as [m|] eqn:Hvalid.
  { apply valid_token_first_invalid in Hvalid. congruence. }
  rewrite Hinvalid. split; [done|].
  apply first_invalid_lookup in Hinvalid as [_ Hc].
  unfold substr in Hc. rewrite Nat.sub_0_r in Hc.
  apply lookup_take_Some in Hc as [Hc _]. by rewrite lookup_drop in Hc.
Qed.

(** The scan for the closer of a comment always answers, and never
    behind where it started. *)
Lemma find_closer_total n : forall input current,
  (length input <= n + current + 2)%nat ->
  find_closer n input current <> NoFuel.
Proof.
  induction n as [|n IH]; intros input current Hn; simpl;
    destruct (decide (substr input current 2 = [42; 47])); try done;
    destruct (length input <=? current + 2)%nat eqn:Hend; try done;
    apply Nat.leb_gt in Hend.
  - lia.
  - apply IH. lia.
Qed.

Lemma find_closer_ge n : forall input current current',
  find_closer n input current = Return current' -> (current <= current')%nat.
Proof.
  induction n as [|n IH]; intros input current current'; simpl;
    destruct (decide (substr input current 2 = [42; 47])); try (intros [= <-]; lia);
    destruct (length input <=? current + 2)%nat; try done.
  intros H%IH. lia.
Qed.

(** The only texts on which the error branch throws nothing: the window
    holds the beginning of a token and the input ends inside it. *)
Lemma first_invalid_none token :
  first_invalid 0 token = None -> valid_token token = None ->
  token ∈ [[]; [0x3046]; [0x3046; 0x3093]; [0x3046; 0x3093; 0x3061]].
Proof.
  intros Hnone Hvalid.
  destruct token as [|c0 [|c1 [|c2 [|c3 [|c4 token]]]]]; simpl in Hnone;
    repeat (case_bool_decide; [|done]); set_unfold; destruct_or?; subst;
    try done; try (clear; by eauto 10); by vm_compute in Hvalid.
Qed.

(** Every turn of the lexer ends the call, or moves [current] forward,
    or, where the input ends inside a token, changes nothing. *)
Lemma tokenize_turn_progress input current tokens :
  match tokenize_turn input current tokens with
  | Stop r => r <> NoFuel
  | Next current' tokens' =>
      (current < current')%nat \/
      (current' = current /\ tokens' = tokens /\
       drop current input ∈ [[0x3046]; [0x3046; 0x3093]; [0x3046; 0x3093; 0x3061]])
  end.
Proof.
  unfold tokenize_turn.
  destruct (current <? length input)%nat eqn:Hlt; [|done]. apply Nat.ltb_lt in Hlt.
  simpl negb. cbv iota.
  destruct (from_option is_space false (input !! current)); [left; lia|].
  destruct (decide (substr input current 2 = [47; 42])).
  { pose proof (find_closer_total (length input) input (S (S current)) ltac:(lia)) as Htot.
    destruct (find_closer (length input) input (S (S current))) as [current'| |] eqn:Hfind;
      [|done..].
    apply find_closer_ge in Hfind. left. lia. }
  cbv zeta.
  destruct (valid_token (substr input current 4)) as [m|] eqn:Hvalid; [left; lia|].
  destruct (first_invalid 0 (substr input current 4)) as [[i c]|] eqn:Hinvalid; [done|].
  right. split; [done|]. split; [done|].
  pose proof (first_invalid_none _ Hinvalid Hvalid) as Htoken.
  assert (Hlen : (length (substr input current 4) < 4)%nat).
  { set_unfold. destruct Htoken as [->|[->|[->|[->|[]]]]]; simpl; lia. }
  unfold substr in *. rewrite length_take in Hlen.
  rewrite take_ge in Htoken by lia.
  assert (drop current input <> []).
  { intros Hnil. apply (f_equal length) in Hnil. rewrite length_drop in Hnil.
    simpl in Hnil. lia. }
  set_unfold. destruct Htoken as [?|[?|[?|[?|[]]]]]; eauto.
Qed.

(** On a text in which no token is cut by the end of the input, the
    lexer answers within one turn per character, and one more. *)
Lemma tokenize_from_total input :
  (forall current,
     drop current input ∉ [[0x3046]; [0x3046; 0x3093]; [0x3046; 0x3093; 0x3061]]) ->
  forall fuel current tokens,
    (0 < fuel)%nat -> (length input < fuel + current)%nat ->
    tokenize_from fuel input current tokens <> NoFuel.
Proof.
  intros Hwhole fuel.
  induction fuel as [|fuel IH]; intros current tokens Hpos Hfuel; [lia|].
  rewrite tokenize_from_S.
  pose proof (tokenize_turn_progress input current tokens) as Hturn.
  destruct (tokenize_turn input current tokens) as [current' tokens'|r] eqn:Hnext;
    [|done].
  destruct Hturn as [Hlt|(_ & _ & Hstuck)]; [|by destruct (Hwhole current)].
  destruct (decide (length input <= current)%nat) as [Hend|Hin].
  { by rewrite tokenize_turn_end in Hnext. }
  apply IH; lia.
Qed.

Lemma tokenize_total input :
  (forall current,
     drop current input ∉ [[0x3046]; [0x3046; 0x3093]; [0x3046; 0x3093; 0x3061]]) ->
  tokenize (S (length input)) input <> NoFuel.
Proof. intros Hwhole. apply tokenize_from_total; [done|lia|lia]. Qed.

End LexerFacts.

(** ** Parser *)

Module ParserFacts.
Import definedInstructions Parser.

(** Induction over a node, with the nodes of a loop body covered. *)
Lemma node_nested_ind (P : node -> Prop) :
  (forall value, P (Simple value)) ->
  (forall value, Forall P value -> P (Loop value)) ->
  forall n, P n.
Proof.
  intros Hsimple Hloop. fix IH 1. intros [value|value].
  - apply Hsimple.
  - apply Hloop. induction value as [|n value IHvalue].
    + constructor.
    + constructor; [apply IH|exact IHvalue].
Qed.

(** Induction over a tree: the body of a loop comes with its own
    induction hypothesis. *)
Lemma forest_ind (P : list node -> Prop) :
  P [] ->
  (forall value rest, P rest -> P (Simple value :: rest)) ->
  (forall value rest, P value -> P rest -> P (Loop value :: rest)) ->
  forall instructions, P instructions.
Proof.
  intros Hnil Hsimple Hloop.
  assert (Hnode : forall n rest, P rest -> P (n :: rest)).
  { induction n as [value|value IHvalue] using node_nested_ind; intros rest Hrest.
    - by apply Hsimple.
    - apply Hloop; [|done].
      induction IHvalue as [|n value Hn _ IH]; [done|by apply Hn]. }
  induction instructions as [|n rest IH]; [done|by apply Hnode].
Qed.

Lemma parseRecursively_S fuel tokens current loopDepth instructions :
  parseRecursively (S fuel) tokens current loopDepth instructions =
  match tokens !! current with
  | None => Return (instructions, current, loopDepth)
  | Some m =>
      let instruction := (m, tokens !! S current) in
      if decide (instruction = (mB, Some mB)) then Throw InvalidInstructionPair
      else if decide (instruction = IN) then Throw UnsupportedInput
      else if decide (instruction = LOOP_END) then
        if (0 <? loopDepth)%nat
        then Return (instructions, S current, (loopDepth - 1)%nat)
        else Throw UnmatchedLoopEnd
      else if decide (instruction = LOOP_START) then
        match parseRecursively fuel tokens (S (S current)) (S loopDepth) [] with
        | Return (value, current', loopDepth') =>
            parseRecursively fuel tokens (S current') loopDepth'
              (instructions ++ [Loop value])
        | Throw e => Throw e
        | NoFuel => NoFuel
        end
      else
        parseRecursively fuel tokens (S (S current)) loopDepth
          (instructions ++ [Simple instruction])
  end.
Proof. reflexivity. Qed.

(** Linear arithmetic with remainders, for the parity of [current]. *)
Ltac parity := zify; Z.to_euclidean_division_equations; lia.

(** More fuel does not change an answer. *)
Lemma parseRecursively_mono fuel : forall fuel' tokens current loopDepth instructions r,
  parseRecursively fuel tokens current loopDepth instructions = r ->
  r <> NoFuel ->
  (fuel <= fuel')%nat ->
  parseRecursively fuel' tokens current loopDepth instructions = r.
Proof.
  induction fuel as [|fuel IH]; intros fuel' tokens current loopDepth instructions r Hr Hne Hle.
  { simpl in Hr. congruence. }
  destruct fuel' as [|fuel']; [lia|].
  rewrite parseRecursively_S in *. cbv zeta in *.
  destruct (tokens !! current) as [m|]; [|done].
  repeat case_decide; try done.
  - destruct (parseRecursively fuel tokens (S (S current)) (S loopDepth) [])
      as [[[value current'] loopDepth']|e|] eqn:Hinner.
    + rewrite (IH fuel' _ _ _ _ _ Hinner) by (done || lia).
      apply (IH fuel' _ _ _ _ _ Hr); [done|lia].
    + by rewrite (IH fuel' _ _ _ _ _ Hinner) by (done || lia).
    + congruence.
  - apply (IH fuel' _ _ _ _ _ Hr); [done|lia].
Qed.

(** Two answers of the same call are the same answer. *)
Lemma parseRecursively_det fuel fuel' tokens current loopDepth instructions r r' :
  parseRecursively fuel tokens current loopDepth instructions = r -> r <> NoFuel ->
  parseRecursively fuel' tokens current loopDepth instructions = r' -> r' <> NoFuel ->
  r = r'.
Proof.
  intros Hr Hne Hr' Hne'.
  apply (parseRecursively_mono _ (fuel `max` fuel')) in Hr; [|done|lia].
  apply (parseRecursively_mono _ (fuel `max` fuel')) in Hr'; [|done|lia].
  congruence.
Qed.

(** [current] never goes back. *)
Lemma parseRecursively_cursor fuel : forall tokens current loopDepth instructions value current' loopDepth',
  parseRecursively fuel tokens current loopDepth instructions
    = Return (value, current', loopDepth') ->
  (current <= current')%nat.
Proof.
  induction fuel as [|fuel IH]; intros tokens current loopDepth instructions value current' loopDepth' Hr.
  { done. }
  rewrite parseRecursively_S in Hr. cbv zeta in Hr.
  destruct (tokens !! current) as [m|]; [|injection Hr; lia].
  repeat case_decide; try done.
  - destruct (0 <? loopDepth)%nat; [injection Hr; lia|done].
  - destruct (parseRecursively fuel tokens (S (S current)) (S loopDepth) [])
      as [[[value0 current0] loopDepth0]|e|] eqn:Hinner; try done.
    apply IH in Hinner. apply IH in Hr. lia.
  - apply IH in Hr. lia.
Qed.

(** One unit of fuel per marker left, and one more, is enough. *)
Lemma parseRecursively_total fuel : forall tokens current loopDepth instructions,
  (0 < fuel)%nat ->
  (length tokens < fuel + current)%nat ->
  parseRecursively fuel tokens current loopDepth instructions <> NoFuel.
Proof.
  induction fuel as [|fuel IH]; intros tokens current loopDepth instructions Hpos Hfuel.
  { lia. }
  rewrite parseRecursively_S. cbv zeta.
  destruct (tokens !! current) as [m|] eqn:Hm; [|done].
  apply lookup_lt_Some in Hm.
  repeat case_decide; try done.
  - by destruct (0 <? loopDepth)%nat.
  - destruct (parseRecursively fuel tokens (S (S current)) (S loopDepth) [])
      as [[[value0 current0] loopDepth0]|e|] eqn:Hinner; try done.
    + apply parseRecursively_cursor in Hinner. apply IH; lia.
    + exfalso. revert Hinner. apply IH; lia.
  - apply IH; lia.
Qed.

Lemma encode_cons n rest : encode (n :: rest) = encode_node n ++ encode rest.
Proof. reflexivity. Qed.

Lemma encode_app l1 l2 : encode (l1 ++ l2) = encode l1 ++ encode l2.
Proof. unfold encode. by rewrite map_app, concat_app. Qed.

Lemma encode_loop value : encode_node (Loop value) = [mA; mB] ++ encode value ++ [mB; mA].
Proof. reflexivity. Qed.

Lemma parsed_shape_cons n rest :
  parsed_shape (n :: rest) = all_simple executable n && parsed_shape rest.
Proof. reflexivity. Qed.

Lemma parsed_shape_app l1 l2 :
  parsed_shape (l1 ++ l2) = parsed_shape l1 && parsed_shape l2.
Proof. apply forallb_app. Qed.

(** The five executable pairs, spelled out. *)
Lemma executable_cases value :
  executable value = true ->
  exists a b, value = (a, Some b) /\
    (a, b) ∈ [(mC, mB); (mB, mC); (mC, mC); (mA, mA); (mA, mC)].
Proof.
  unfold executable. intros H. apply bool_decide_eq_true in H.
  unfold INCREMENT_POINTER, DECREMENT_POINTER, INCREMENT_VALUE, DECREMENT_VALUE, OUT in H.
  set_unfold. destruct H as [->|[->|[->|[->|[->|[]]]]]]; eexists _, _; split; eauto 10.
Qed.

(** The two reads of a turn, in an array known around [current]. *)
Lemma lookup_pair (pre suf : list marker) a b :
  (pre ++ a :: b :: suf) !! length pre = Some a /\
  (pre ++ a :: b :: suf) !! S (length pre) = Some b.
Proof.
  split; [by apply list_lookup_middle|].
  change (pre ++ a :: b :: suf) with (pre ++ [a] ++ b :: suf).
  rewrite app_assoc. apply list_lookup_middle. rewrite length_app. simpl. lia.
Qed.

(** A turn that reads an executable pair goes on behind it with one
    more [Simple] node. *)
Lemma parses_simple tokens current loopDepth instructions a b r :
  tokens !! current = Some a -> tokens !! S current = Some b ->
  executable (a, Some b) = true ->
  parses tokens (S (S current)) loopDepth (instructions ++ [Simple (a, Some b)]) r ->
  parses tokens current loopDepth instructions r.
Proof.
  intros Ha Hb Hexec [fuel [Hr Hne]]. exists (S fuel). split; [|done].
  rewrite parseRecursively_S, Ha, Hb. cbv zeta.
  apply executable_cases in Hexec as (a' & b' & [= -> ->] & Hin).
  set_unfold. destruct Hin as [[= -> ->]|[[= -> ->]|[[= -> ->]|[[= -> ->]|[[= -> ->]|[]]]]]];
    exact Hr.
Qed.

(** A turn that reads LoopEnd inside a loop hands the block back. *)
Lemma parses_loop_end tokens current loopDepth instructions :
  tokens !! current = Some mB -> tokens !! S current = Some mA ->
  parses tokens current (S loopDepth) instructions
    (Return (instructions, S current, loopDepth)).
Proof.
  intros Ha Hb. exists 1%nat. split; [|done].
  rewrite parseRecursively_S, Ha, Hb. cbv zeta.
  repeat case_decide; try done. simpl. by rewrite Nat.sub_0_r.
Qed.

(** A turn that reads LoopStart: the nested call, then the rest of the
    turn. *)
Lemma parses_loop_start tokens current loopDepth instructions value current' loopDepth' r :
  tokens !! current = Some mA -> tokens !! S current = Some mB ->
  parses tokens (S (S current)) (S loopDepth) [] (Return (value, current', loopDepth')) ->
  parses tokens (S current') loopDepth' (instructions ++ [Loop value]) r ->
  parses tokens current loopDepth instructions r.
Proof.
  intros Ha Hb [fuel1 [H1 Hne1]] [fuel2 [H2 Hne2]].
  exists (S (fuel1 `max` fuel2)). split; [|done].
  rewrite parseRecursively_S, Ha, Hb. cbv zeta.
  repeat case_decide; try done.
  rewrite (parseRecursively_mono _ (fuel1 `max` fuel2) _ _ _ _ _ H1) by (done || lia).
  apply (parseRecursively_mono _ (fuel1 `max` fuel2) _ _ _ _ _ H2); [done|lia].
Qed.

Lemma parses_loop_start_throw tokens current loopDepth instructions e :
  tokens !! current = Some mA -> tokens !! S current = Some mB ->
  parses tokens (S (S current)) (S loopDepth) [] (Throw e) ->
  parses tokens current loopDepth instructions (Throw e).
Proof.
  intros Ha Hb [fuel1 [H1 Hne1]].
  exists (S fuel1). split; [|done].
  rewrite parseRecursively_S, Ha, Hb. cbv zeta.
  repeat case_decide; try done. by rewrite H1.
Qed.

(** The parser at the end of the array hands back what it has. *)
Lemma parses_end tokens current loopDepth instructions :
  (length tokens <= current)%nat ->
  parses tokens current loopDepth instructions (Return (instructions, current, loopDepth)).
Proof.
  intros Hle. exists 1%nat. split; [|done].
  rewrite parseRecursively_S. by rewrite (proj2 (lookup_ge_None _ _) Hle).
Qed.

(** Reading the markers of a well-shaped tree appends the tree: whatever
    the parser answers behind them, it answers in front of them. *)
Lemma parses_forest f :
  parsed_shape f = true ->
  forall tokens pre suf current loopDepth instructions r,
    tokens = pre ++ encode f ++ suf ->
    current = length pre ->
    parses tokens (current + length (encode f)) loopDepth (instructions ++ f) r ->
    parses tokens current loopDepth instructions r.
Proof.
  induction f as [|value rest IHrest|value rest IHvalue IHrest] using forest_ind;
    intros Hshape tokens pre suf current loopDepth instructions r Htokens Hcurrent Hr.
  - simpl in Hr. by rewrite Nat.add_0_r, app_nil_r in Hr.
  - rewrite parsed_shape_cons in Hshape. apply andb_prop in Hshape as [Hexec Hrest].
    simpl in Hexec.
    destruct (executable_cases _ Hexec) as (a & b & -> & _).
    rewrite encode_cons in Htokens, Hr. simpl in Htokens.
    destruct (lookup_pair pre (encode rest ++ suf) a b) as [Ha Hb].
    rewrite <- Htokens, <- Hcurrent in Ha, Hb.
    apply (parses_simple _ _ _ _ a b); [done..|].
    apply (IHrest Hrest tokens (pre ++ [a; b]) suf).
    + by rewrite <- app_assoc.
    + rewrite length_app. simpl. lia.
    + rewrite <- app_assoc.
      replace (S (S current) + length (encode rest))%nat
        with (current + length (encode_node (Simple (a, Some b)) ++ encode rest))%nat
        by (rewrite length_app; simpl; lia).
      exact Hr.
  - rewrite parsed_shape_cons in Hshape. apply andb_prop in Hshape as [Hvalue Hrest].
    simpl in Hvalue. fold (parsed_shape value) in Hvalue.
    rewrite encode_cons, encode_loop in Htokens, Hr.
    rewrite <- !app_assoc in Htokens. simpl in Htokens.
    destruct (lookup_pair pre (encode value ++ mB :: mA :: encode rest ++ suf) mA mB)
      as [Ha Hb].
    rewrite <- Htokens, <- Hcurrent in Ha, Hb.
    destruct (lookup_pair (pre ++ [mA; mB] ++ encode value) (encode rest ++ suf) mB mA)
      as [Hc Hd].
    rewrite <- !app_assoc in Hc, Hd. simpl in Hc, Hd. rewrite <- Htokens in Hc, Hd.
    rewrite length_app in Hc, Hd. simpl in Hc, Hd. rewrite <- Hcurrent in Hc, Hd.
    eapply parses_loop_start; [done..| |].
    + (* the nested call reads the body and its LoopEnd *)
      apply (IHvalue Hvalue tokens (pre ++ [mA; mB]) (mB :: mA :: encode rest ++ suf)).
      * by rewrite <- app_assoc.
      * rewrite length_app. simpl. lia.
      * replace (S (S current) + length (encode value))%nat
          with (current + S (S (length (encode value))))%nat by lia.
        by apply parses_loop_end.
    + (* the turn goes on behind the LoopEnd *)
      apply (IHrest Hrest tokens (pre ++ [mA; mB] ++ encode value ++ [mB; mA]) suf).
      * by rewrite <- !app_assoc.
      * rewrite !length_app. simpl. lia.
      * rewrite <- app_assoc.
        replace (S (S (current + S (S (length (encode value))))) + length (encode rest))%nat
          with (current + length (([mA; mB] ++ encode value ++ [mB; mA]) ++ encode rest))%nat
          by (rewrite !length_app; simpl; lia).
        exact Hr.
Qed.

Lemma length_encode f : parsed_shape f = true -> length (encode f) = (2 * pairs f)%nat.
Proof.
  induction f as [|value rest IHrest|value rest IHvalue IHrest] using forest_ind;
    intros Hshape; [done|..];
    rewrite parsed_shape_cons in Hshape; apply andb_prop in Hshape as [Hn Hrest];
    rewrite encode_cons, length_app, (IHrest Hrest); unfold pairs; simpl.
  - destruct (executable_cases _ Hn) as (a & b & -> & _). simpl. lia.
  - fold (encode value). rewrite length_app, (IHvalue Hn). unfold pairs. simpl. lia.
Qed.

Lemma length_encode_open opened : forall f,
  parsed_shape f = true -> forallb parsed_shape opened = true ->
  (length (encode_open f opened) mod 2 = 0)%nat.
Proof.
  induction opened as [|body opened IH]; intros f Hf Hopened; cbn [encode_open].
  - rewrite (length_encode f Hf). parity.
  - simpl in Hopened. apply andb_prop in Hopened as [Hbody Hopened].
    rewrite !length_app, (length_encode f Hf). cbn [length].
    specialize (IH body Hbody Hopened). parity.
Qed.

(** [parse] gives the answer of the outermost call. *)
Lemma parse_parses tokens r :
  (length tokens mod 2 = 0)%nat ->
  parses tokens 0 0 [] r ->
  parse tokens =
    match r with
    | Return (instructions, _, _) => Return instructions
    | Throw e => Throw e
    | NoFuel => NoFuel
    end.
Proof.
  intros Heven [fuel [Hr Hne]]. unfold parse.
  rewrite Heven. simpl negb. cbv iota.
  pose proof (parseRecursively_total (S (length tokens)) tokens 0 0 []) as Htotal.
  destruct (parseRecursively (S (length tokens)) tokens 0 0 []) as [v|e|] eqn:Hparse.
  - by rewrite <- (parseRecursively_det _ _ _ _ _ _ _ _ Hparse ltac:(done) Hr Hne).
  - by rewrite <- (parseRecursively_det _ _ _ _ _ _ _ _ Hparse ltac:(done) Hr Hne).
  - exfalso. apply Htotal; [lia|lia|done].
Qed.

(** [parse] never lacks fuel. *)
Lemma parse_total tokens : parse tokens <> NoFuel.
Proof.
  unfold parse. destruct (negb _); [done|].
  pose proof (parseRecursively_total (S (length tokens)) tokens 0 0 []) as Htotal.
  destruct (parseRecursively (S (length tokens)) tokens 0 0 [])
    as [[[instructions current] loopDepth]|e|]; [done|done|].
  exfalso. apply Htotal; [lia|lia|done].
Qed.

(** The markers of a tree are read back as the tree. *)
Lemma parse_encode f : parsed_shape f = true -> parse (encode f) = Return f.
Proof.
  intros Hshape.
  rewrite (parse_parses (encode f) (Return (f, length (encode f), 0%nat))); [done| |].
  - rewrite (length_encode f Hshape). parity.
  - apply (parses_forest f Hshape (encode f) [] []); [by rewrite app_nil_r|done|].
    simpl. by apply parses_end.
Qed.

(** A program that ends inside loops is read as if every open loop
    were closed where the input ends. *)
Lemma parses_open opened : forall f tokens pre current loopDepth instructions,
  parsed_shape f = true -> forallb parsed_shape opened = true ->
  tokens = pre ++ encode_open f opened ->
  current = length pre ->
  exists current' loopDepth',
    parses tokens current loopDepth instructions
      (Return (instructions ++ close_open f opened, current', loopDepth'))
    /\ (length tokens <= current')%nat.
Proof.
  induction opened as [|body opened IH];
    intros f tokens pre current loopDepth instructions Hf Hopened Htokens Hcurrent.
  - simpl in *. exists (current + length (encode f))%nat, loopDepth. split.
    + apply (parses_forest f Hf tokens pre []); [by rewrite app_nil_r|done|].
      apply parses_end. rewrite Htokens, length_app. lia.
    + rewrite Htokens, length_app. lia.
  - simpl in Hopened. apply andb_prop in Hopened as [Hbody Hopened].
    simpl in Htokens.
    destruct (IH body tokens (pre ++ encode f ++ [mA; mB])
                (S (S (current + length (encode f)))) (S loopDepth) [] Hbody Hopened)
      as (current' & loopDepth' & Hinner & Hlen).
    { by rewrite <- !app_assoc. }
    { rewrite !length_app. simpl. lia. }
    exists (S current'), loopDepth'. split; [|lia].
    apply (parses_forest f Hf tokens pre (mA :: mB :: encode_open body opened));
      [done|done|].
    destruct (lookup_pair (pre ++ encode f) (encode_open body opened) mA mB) as [Ha Hb].
    rewrite <- !app_assoc, length_app in Ha, Hb. simpl in Htokens.
    rewrite <- Htokens, <- Hcurrent in Ha, Hb.
    eapply parses_loop_start; [done|done|exact Hinner|].
    simpl. rewrite app_assoc. apply parses_end. lia.
Qed.

(** An error thrown behind the markers of a program that ends inside
    loops is the error of the whole call. *)
Lemma parses_open_throw opened e : forall f tokens pre suf current loopDepth instructions,
  parsed_shape f = true -> forallb parsed_shape opened = true ->
  tokens = pre ++ encode_open f opened ++ suf ->
  current = length pre ->
  (forall loopDepth' instructions',
     parses tokens (current + length (encode_open f opened)) loopDepth' instructions'
       (Throw e)) ->
  parses tokens current loopDepth instructions (Throw e).
Proof.
  induction opened as [|body opened IH];
    intros f tokens pre suf current loopDepth instructions Hf Hopened Htokens Hcurrent Hthrow.
  - simpl in *. apply (parses_forest f Hf tokens pre suf); [done..|]. apply Hthrow.
  - simpl in Hopened. apply andb_prop in Hopened as [Hbody Hopened].
    simpl in Htokens, Hthrow. rewrite <- !app_assoc in Htokens. simpl in Htokens.
    apply (parses_forest f Hf tokens pre (mA :: mB :: encode_open body opened ++ suf));
      [done|done|].
    destruct (lookup_pair (pre ++ encode f) (encode_open body opened ++ suf) mA mB)
      as [Ha Hb].
    rewrite <- !app_assoc, length_app in Ha, Hb.
    rewrite <- Htokens, <- Hcurrent in Ha, Hb.
    apply parses_loop_start_throw; [done|done|].
    apply (IH body tokens (pre ++ encode f ++ [mA; mB]) suf); [done|done|..].
    + by rewrite <- !app_assoc.
    + rewrite !length_app. simpl. lia.
    + intros loopDepth' instructions'.
      specialize (Hthrow loopDepth' instructions').
      rewrite length_app in Hthrow. simpl in Hthrow.
      replace (S (S (current + length (encode f))) + length (encode_open body opened))%nat
        with (current + (length (encode f) + S (S (length (encode_open body opened)))))%nat
        by lia.
      exact Hthrow.
Qed.

(** What a call hands back is well shaped, and it leaves [current] on
    the second marker of a pair or at the end of the array. *)
Lemma parseRecursively_shape fuel :
  forall tokens current loopDepth instructions value current' loopDepth',
  (length tokens mod 2 = 0)%nat ->
  (current mod 2 = 0 \/ length tokens <= current)%nat ->
  parsed_shape instructions = true ->
  parseRecursively fuel tokens current loopDepth instructions
    = Return (value, current', loopDepth') ->
  parsed_shape value = true /\
  (S current' mod 2 = 0 \/ length tokens <= S current')%nat.
Proof.
  induction fuel as [|fuel IH];
    intros tokens current loopDepth instructions value current' loopDepth'
      Heven Hcurrent Hshape Hr; [done|].
  rewrite parseRecursively_S in Hr. cbv zeta in Hr.
  destruct (tokens !! current) as [a|] eqn:Ha.
  2:{ apply lookup_ge_None in Ha. injection Hr as <- <- <-. split; [done|lia]. }
  apply lookup_lt_Some in Ha.
  assert (Hlt : (S current < length tokens)%nat) by parity.
  destruct (lookup_lt_is_Some_2 tokens (S current) Hlt) as [b Hb].
  rewrite Hb in Hr.
  repeat case_decide; try done.
  - destruct (0 <? loopDepth)%nat; [|done]. injection Hr as <- <- <-.
    split; [done|parity].
  - destruct (parseRecursively fuel tokens (S (S current)) (S loopDepth) [])
      as [[[value0 current0] loopDepth0]|e0|] eqn:Hinner; try done.
    apply IH in Hinner as [Hvalue0 Hcurrent0]; [|done|parity|done].
    apply IH in Hr; [done|done|done|].
    rewrite parsed_shape_app, Hshape. simpl. fold (parsed_shape value0).
    by rewrite Hvalue0.
  - apply IH in Hr; [done|done|parity|].
    rewrite parsed_shape_app, Hshape. simpl. rewrite andb_true_r.
    unfold IN, LOOP_END, LOOP_START in *. destruct a, b; done.
Qed.

(** Every tree [parse] returns is well shaped. *)
Lemma parse_shape tokens instructions :
  parse tokens = Return instructions -> parsed_shape instructions = true.
Proof.
  unfold parse. destruct (length tokens mod 2 =? 0)%nat eqn:Heven; [|done].
  cbn [negb]. apply Nat.eqb_eq in Heven.
  destruct (parseRecursively (S (length tokens)) tokens 0 0 [])
    as [[[value current] loopDepth]|e|] eqn:Hparse; [|done..].
  intros [= <-].
  by apply parseRecursively_shape in Hparse as [? _]; [|done|left|done].
Qed.

End ParserFacts.

(** ** Executor *)

Module ExecutorFacts.
Import definedInstructions Parser Executor.

Lemma PoopFucker_do_S fuel instructions st :
  PoopFucker_do (S fuel) instructions st =
  match instructions with
  | [] => (Finished, st)
  | Loop value :: rest =>
      if nonzero st then
        match PoopFucker_do fuel value st with
        | (Finished, st') => PoopFucker_do fuel (Loop value :: rest) st'
        | stopped => stopped
        end
      else PoopFucker_do fuel rest st
  | Simple value :: rest =>
      match exec value st with
      | inl st' => PoopFucker_do fuel rest st'
      | inr e => (Threw e, st)
      end
  end.
Proof. reflexivity. Qed.

(** More fuel does not change the end of a run that had enough. *)
Lemma PoopFucker_do_mono fuel : forall fuel' instructions st s st',
  PoopFucker_do fuel instructions st = (s, st') ->
  s <> OutOfFuel ->
  (fuel <= fuel')%nat ->
  PoopFucker_do fuel' instructions st = (s, st').
Proof.
  induction fuel as [|fuel IH]; intros fuel' instructions st s st' Hdo Hs Hle.
  { simpl in Hdo. congruence. }
  destruct fuel' as [|fuel']; [lia|].
  rewrite PoopFucker_do_S in *.
  destruct instructions as [|[value|value] rest]; [done|..].
  - destruct (exec value st) as [st1|e]; [|done].
    apply (IH fuel' _ _ _ _ Hdo); [done|lia].
  - destruct (nonzero st).
    + destruct (PoopFucker_do fuel value st) as [s1 st1] eqn:Hbody.
      assert (s1 <> OutOfFuel) by (destruct s1; congruence).
      rewrite (IH fuel' _ _ _ _ Hbody) by (done || lia).
      destruct s1; [|done..].
      apply (IH fuel' _ _ _ _ Hdo); [done|lia].
    + apply (IH fuel' _ _ _ _ Hdo); [done|lia].
Qed.

Lemma PoopFucker_do_det fuel fuel' instructions st s s' st' st'' :
  PoopFucker_do fuel instructions st = (s, st') -> s <> OutOfFuel ->
  PoopFucker_do fuel' instructions st = (s', st'') -> s' <> OutOfFuel ->
  s = s' /\ st' = st''.
Proof.
  intros H Hs H' Hs'.
  apply (PoopFucker_do_mono _ (fuel `max` fuel')) in H; [|done|lia].
  apply (PoopFucker_do_mono _ (fuel `max` fuel')) in H'; [|done|lia].
  split; congruence.
Qed.

(** A slot reads back what was last stored in it, wherever it lies. *)
Lemma mem_get_set m p v : mem_get (mem_set m p v) p = v.
Proof.
  unfold mem_get, mem_set. destruct (0 <=? p) eqn:Hp.
  - destruct (Z.to_nat p <? length (elems m))%nat eqn:Hlt; simpl.
    + apply Nat.ltb_lt in Hlt. by rewrite list_lookup_insert_eq.
    + apply Nat.ltb_ge in Hlt.
      rewrite lookup_app_r by lia.
      rewrite lookup_app_r by (rewrite length_replicate; lia).
      rewrite length_replicate.
      by replace (Z.to_nat p - length (elems m) - (Z.to_nat p - length (elems m)))%nat
        with 0%nat by lia.
  - simpl. by rewrite lookup_insert_eq.
Qed.

(** The runs of a loop, in both directions: a run of a loop node that
    ends is some number of complete runs of the body, each entered on a
    test that held, after which either the test fails and the rest of
    the program decides the end, or the test holds and the body stops
    the run. *)
Lemma loop_run_iterations fuel : forall value rest st s st_f,
  PoopFucker_do fuel (Loop value :: rest) st = (s, st_f) -> s <> OutOfFuel ->
  exists n st',
    iterations value n st st' /\
    ((nonzero st' = false /\ exists fuel', PoopFucker_do fuel' rest st' = (s, st_f)) \/
     (nonzero st' = true /\ s <> Finished /\
      exists fuel', PoopFucker_do fuel' value st' = (s, st_f))).
Proof.
  induction fuel as [|fuel IH]; intros value rest st s st_f Hdo Hs.
  { simpl in Hdo. congruence. }
  rewrite PoopFucker_do_S in Hdo.
  destruct (nonzero st) eqn:Htest.
  - destruct (PoopFucker_do fuel value st) as [s1 st1] eqn:Hbody.
    destruct s1.
    + destruct (IH _ _ _ _ _ Hdo Hs) as (n & st' & Hiter & Hend).
      exists (S n), st'. split; [|done]. by eapply iterations_S.
    + injection Hdo as <- <-. exists 0%nat, st. split; [constructor|].
      right. split; [done|]. split; [done|]. by exists fuel.
    + injection Hdo as <- <-. done.
  - exists 0%nat, st. split; [constructor|]. left. split; [done|]. by exists fuel.
Qed.

Lemma iterations_loop_run value rest n st st' : forall s st_f,
  iterations value n st st' ->
  s <> OutOfFuel ->
  (nonzero st' = false /\ exists fuel', PoopFucker_do fuel' rest st' = (s, st_f)) \/
  (nonzero st' = true /\ s <> Finished /\
   exists fuel', PoopFucker_do fuel' value st' = (s, st_f)) ->
  exists fuel, PoopFucker_do fuel (Loop value :: rest) st = (s, st_f).
Proof.
  intros s st_f Hiter Hs Hend.
  induction Hiter as [st|n st st1 st2 fuel1 Htest Hbody Hiter IH].
  - destruct Hend as [[Htest [fuel' Hrest]]|[Htest [Hne [fuel' Hbody]]]].
    + exists (S fuel'). by rewrite PoopFucker_do_S, Htest.
    + exists (S fuel'). rewrite PoopFucker_do_S, Htest, Hbody. by destruct s.
  - destruct (IH Hend) as [fuel2 Hloop].
    exists (S (fuel1 `max` fuel2)). rewrite PoopFucker_do_S, Htest.
    rewrite (PoopFucker_do_mono _ (fuel1 `max` fuel2) _ _ _ _ Hbody) by (done || lia).
    apply (PoopFucker_do_mono _ (fuel1 `max` fuel2) _ _ _ _ Hloop); [done|lia].
Qed.

(** The number of iterations after which the test fails is unique. *)
Lemma iterations_unique value n st st' :
  iterations value n st st' -> nonzero st' = false ->
  forall m st'', iterations value m st st'' -> nonzero st'' = false ->
  m = n /\ st'' = st'.
Proof.
  induction 1 as [st|n st st1 st2 fuel1 Htest Hbody Hiter IH]; intros Hend m st'' Hm Hend'.
  - inversion Hm; subst; [done|congruence].
  - inversion Hm as [|m' ? st1' ? fuel2 _ Hbody' Hiter']; subst; [congruence|].
    destruct (PoopFucker_do_det _ _ _ _ _ _ _ _ Hbody ltac:(done) Hbody' ltac:(done))
      as [_ <-].
    destruct (IH Hend _ _ Hiter' Hend') as [-> ->]. done.
Qed.

(** The loop whose body is one DecrementValue, entered on a cell
    holding [n]: [n] runs of the body bring the cell to zero and touch
    nothing else. *)
Lemma countdown n : forall st,
  mem_get (memory st) (pointer st) = JNum (Z.of_nat n) ->
  exists st',
    iterations [Simple DECREMENT_VALUE] n st st' /\
    mem_get (memory st') (pointer st') = JNum 0 /\
    pointer st' = pointer st /\ stdout st' = stdout st.
Proof.
  induction n as [|n IH]; intros st Hcell.
  - exists st. split; [constructor|done].
  - set (st1 := {| pointer := pointer st;
                   memory := mem_set (memory st) (pointer st)
                               (decr (mem_get (memory st) (pointer st)));
                   stdout := stdout st; warnings := warnings st |}).
    destruct (IH st1) as (st' & Hiter & Hzero & Hptr & Hout).
    { simpl. rewrite mem_get_set, Hcell. simpl. f_equal. lia. }
    exists st'. split; [|done].
    apply (iterations_S _ n st st1 st' 2); [|done|done].
    unfold nonzero. rewrite Hcell. apply bool_decide_eq_true. intros [= ?]; lia.
Qed.

(** *** Trees built by the parser *)

(** An executable pair is carried out without an error and without a
    warning. *)
Lemma exec_executable value st :
  executable value = true ->
  exists st', exec value st = inl st' /\ warnings st' = warnings st.
Proof.
  intros Hexec. apply ParserFacts.executable_cases in Hexec as (a & b & -> & Hin).
  set_unfold.
  destruct Hin as [[= -> ->]|[[= -> ->]|[[= -> ->]|[[= -> ->]|[[= -> ->]|[]]]]]];
    eexists; (split; [reflexivity|reflexivity]).
Qed.

(** A run over a well-shaped tree throws nothing and warns of nothing,
    however long it lasts. *)
Lemma PoopFucker_do_shape fuel : forall instructions st s st',
  parsed_shape instructions = true ->
  PoopFucker_do fuel instructions st = (s, st') ->
  (forall e, s <> Threw e) /\ warnings st' = warnings st.
Proof.
  induction fuel as [|fuel IH]; intros instructions st s st' Hshape Hdo.
  { simpl in Hdo. injection Hdo as <- <-. done. }
  rewrite PoopFucker_do_S in Hdo.
  destruct instructions as [|[value|value] rest].
  - injection Hdo as <- <-. done.
  - rewrite ParserFacts.parsed_shape_cons in Hshape.
    apply andb_prop in Hshape as [Hexec Hrest]. simpl in Hexec.
    destruct (exec_executable value st Hexec) as (st1 & Hst1 & Hwarn).
    rewrite Hst1 in Hdo.
    destruct (IH _ _ _ _ Hrest Hdo) as [Hs Hw]. split; [done|congruence].
  - pose proof Hshape as Hall.
    rewrite ParserFacts.parsed_shape_cons in Hshape.
    apply andb_prop in Hshape as [Hvalue Hrest].
    simpl in Hvalue. fold (parsed_shape value) in Hvalue.
    destruct (nonzero st).
    + destruct (PoopFucker_do fuel value st) as [s1 st1] eqn:Hbody.
      destruct (IH _ _ _ _ Hvalue Hbody) as [Hs1 Hw1].
      destruct s1.
      * destruct (IH _ _ _ _ Hall Hdo) as [Hs Hw]. split; [done|congruence].
      * by destruct (Hs1 e).
      * injection Hdo as <- <-. done.
    + by apply (IH _ _ _ _ Hrest Hdo).
Qed.

(** *** The tape *)

Lemma tape_ok_fresh : tape_ok [0] fresh.
Proof.
  split; [done|]. split; [done|]. split; [done|].
  intros k v. unfold fresh. simpl. by rewrite lookup_empty.
Qed.

(** Under [tape_ok], what a read gives. *)
Lemma tape_get_cell cells st z :
  tape_ok cells st -> 0 <= pointer st ->
  cells !! Z.to_nat (pointer st) = Some z ->
  mem_get (memory st) (pointer st) = JNum z.
Proof.
  intros (_ & Helems & Hptr & _) Hpos Hz. unfold mem_get.
  destruct (0 <=? pointer st) eqn:Hp; [|lia].
  rewrite Helems, lookup_app_l by (rewrite length_fmap; lia).
  by rewrite list_lookup_fmap, Hz.
Qed.

Lemma tape_get_null cells st p :
  tape_ok cells st -> p <= Z.of_nat (length cells) ->
  mem_get (memory st) p = JNull <-> p = Z.of_nat (length cells).
Proof.
  intros (_ & Helems & _ & Hprops) Hp. unfold mem_get.
  destruct (0 <=? p) eqn:Hpos.
  - rewrite Helems. split.
    + intros Hnull. destruct (decide (p = Z.of_nat (length cells))) as [|Hne]; [done|].
      rewrite lookup_app_l in Hnull by (rewrite length_fmap; lia).
      rewrite list_lookup_fmap in Hnull.
      destruct (cells !! Z.to_nat p); done.
    + intros ->. rewrite Nat2Z.id.
      by rewrite list_lookup_middle by (by rewrite length_fmap).
  - split; [|lia]. intros Hnull.
    destruct (props (memory st) !! p) as [v|] eqn:Hv; [|done].
    simpl in Hnull. subst v. by destruct (Hprops _ _ Hv).
Qed.

(** One instruction keeps the shape of the tape, and grows it only by
    one zero cell, and only when it is IncrementPointer. *)
Lemma exec_tape_ok value cells st st' :
  tape_ok cells st ->
  exec value st = inl st' ->
  exists cells',
    tape_ok cells' st' /\
    (length cells' = length cells \/
     (value = INCREMENT_POINTER /\ cells' = cells ++ [0])).
Proof.
  intros Hok Hexec. pose proof Hok as (Hne & Helems & Hptr & Hprops).
  unfold exec in Hexec. repeat case_decide; try done; injection Hexec as <-.
  - (* IncrementPointer onto the null *)
    match goal with H : mem_get _ _ = JNull |- _ =>
      apply (tape_get_null cells st) in H; [|done|lia]; rename H into Hend end.
    exists (cells ++ [0]). split; [|by right].
    repeat split; simpl.
    + by destruct cells.
    + unfold mem_set, mem_push. rewrite Hend, Nat2Z.id.
      destruct (0 <=? Z.of_nat (length cells)) eqn:Hpos; [|lia].
      rewrite Helems, length_app, length_fmap. simpl.
      replace (length cells <? length cells + 1)%nat with true
        by (symmetry; apply Nat.ltb_lt; lia).
      simpl. rewrite fmap_app. simpl. f_equal.
      rewrite insert_app_r_alt by (rewrite length_fmap; lia).
      rewrite length_fmap, Nat.sub_diag. done.
    + rewrite length_app. simpl. lia.
    + unfold mem_set, mem_push. rewrite Hend.
      destruct (0 <=? Z.of_nat (length cells)) eqn:Hpos; [|lia].
      by destruct (_ <? _)%nat.
  - (* IncrementPointer onto a cell *)
    exists cells. split; [|by left].
    repeat split; simpl; try done.
    match goal with H : mem_get _ _ <> JNull |- _ => rename H into Hcell end.
    destruct (decide (pointer st + 1 = Z.of_nat (length cells))) as [Heq|]; [|lia].
    destruct Hcell. apply (tape_get_null cells st); [done|lia|done].
  - exists cells. split; [|by left]. repeat split; simpl; try done. lia.
  - (* IncrementValue *)
    destruct (decide (0 <= pointer st)) as [Hpos|Hneg].
    + destruct (lookup_lt_is_Some_2 cells (Z.to_nat (pointer st))) as [z Hz]; [lia|].
      rewrite (tape_get_cell cells st z) by done.
      exists (<[Z.to_nat (pointer st) := z + 1]> cells). split; [|left; by rewrite length_insert].
      repeat split; simpl.
      * intros Hnil. apply (f_equal length) in Hnil. rewrite length_insert in Hnil.
        by destruct cells.
      * unfold mem_set. destruct (0 <=? pointer st) eqn:Hp; [|lia].
        rewrite Helems, length_app, length_fmap. simpl.
        replace (Z.to_nat (pointer st) <? length cells + 1)%nat with true
          by (symmetry; apply Nat.ltb_lt; lia).
        simpl. rewrite insert_app_l by (rewrite length_fmap; lia).
        by rewrite list_fmap_insert.
      * rewrite length_insert. lia.
      * unfold mem_set. destruct (0 <=? pointer st) eqn:Hp; [|lia].
        by destruct (_ <? _)%nat.
    + exists cells. split; [|by left].
      unfold mem_set. destruct (0 <=? pointer st) eqn:Hp; [lia|].
      repeat split; simpl; try done.
      intros k v Hkv. destruct (decide (pointer st = k)) as [<-|Hk].
      * rewrite lookup_insert_eq in Hkv. injection Hkv as <-.
        by destruct (mem_get (memory st) (pointer st)).
      * rewrite lookup_insert_ne in Hkv by done. by apply (Hprops k).
  - (* DecrementValue *)
    destruct (decide (0 <= pointer st)) as [Hpos|Hneg].
    + destruct (lookup_lt_is_Some_2 cells (Z.to_nat (pointer st))) as [z Hz]; [lia|].
      rewrite (tape_get_cell cells st z) by done.
      exists (<[Z.to_nat (pointer st) := z - 1]> cells). split; [|left; by rewrite length_insert].
      repeat split; simpl.
      * intros Hnil. apply (f_equal length) in Hnil. rewrite length_insert in Hnil.
        by destruct cells.
      * unfold mem_set. destruct (0 <=? pointer st) eqn:Hp; [|lia].
        rewrite Helems, length_app, length_fmap. simpl.
        replace (Z.to_nat (pointer st) <? length cells + 1)%nat with true
          by (symmetry; apply Nat.ltb_lt; lia).
        simpl. rewrite insert_app_l by (rewrite length_fmap; lia).
        by rewrite list_fmap_insert.
      * rewrite length_insert. lia.
      * unfold mem_set. destruct (0 <=? pointer st) eqn:Hp; [|lia].
        by destruct (_ <? _)%nat.
    + exists cells. split; [|by left].
      unfold mem_set. destruct (0 <=? pointer st) eqn:Hp; [lia|].
      repeat split; simpl; try done.
      intros k v Hkv. destruct (decide (pointer st = k)) as [<-|Hk].
      * rewrite lookup_insert_eq in Hkv. injection Hkv as <-.
        by destruct (mem_get (memory st) (pointer st)).
      * rewrite lookup_insert_ne in Hkv by done. by apply (Hprops k).
  - exists cells. split; [|by left]. repeat split; simpl; done.
  - exists cells. split; [|by left]. repeat split; simpl; done.
Qed.

(** A run keeps the shape of the tape up to the point where it ends,
    throws, or is cut short. *)
Lemma PoopFucker_do_tape_ok fuel : forall instructions cells st s st',
  tape_ok cells st ->
  PoopFucker_do fuel instructions st = (s, st') ->
  exists cells', tape_ok cells' st'.
Proof.
  induction fuel as [|fuel IH]; intros instructions cells st s st' Hok Hdo.
  { simpl in Hdo. injection Hdo as <- <-. by exists cells. }
  rewrite PoopFucker_do_S in Hdo.
  destruct instructions as [|[value|value] rest].
  - injection Hdo as <- <-. by exists cells.
  - destruct (exec value st) as [st1|e] eqn:Hexec.
    + destruct (exec_tape_ok _ _ _ _ Hok Hexec) as (cells1 & Hok1 & _).
      by apply (IH _ _ _ _ _ Hok1 Hdo).
    + injection Hdo as <- <-. by exists cells.
  - destruct (nonzero st).
    + destruct (PoopFucker_do fuel value st) as [s1 st1] eqn:Hbody.
      destruct (IH _ _ _ _ _ Hok Hbody) as [cells1 Hok1].
      destruct s1.
      * by apply (IH _ _ _ _ _ Hok1 Hdo).
      * injection Hdo as <- <-. by exists cells1.
      * injection Hdo as <- <-. by exists cells1.
    + by apply (IH _ _ _ _ _ Hok Hdo).
Qed.

End ExecutorFacts.

(** * The statements of the specification *)

Import definedInstructions Lexer Parser Executor Driver.
Import LexerFacts ParserFacts ExecutorFacts.

(** C1.  A loop node runs its body in full as long as the cell under the
    pointer is not zero, and tests again, at the pointer as the body left
    it, after each complete run: a run of [Loop value :: rest] from [st]
    ends with [s] in [st_f] exactly when some number of complete runs of
    [value], each entered on a test that held, lead to a runtime where
    either the test fails and [rest] ends so, or the test holds and
    [value] stops the run.  For the loop whose body is one
    DecrementValue, entered on a cell holding 3, the run ends after
    exactly three runs of the body, with the cell at 0. *)
Theorem loop_repeats_body_while_nonzero value rest st s st_f st3 :
  s <> OutOfFuel ->
  mem_get (memory st3) (pointer st3) = JNum 3 ->
  ((exists fuel, PoopFucker_do fuel (Loop value :: rest) st = (s, st_f)) <->
   (exists n st',
      iterations value n st st' /\
      ((nonzero st' = false /\ exists fuel, PoopFucker_do fuel rest st' = (s, st_f)) \/
       (nonzero st' = true /\ s <> Finished /\
        exists fuel, PoopFucker_do fuel value st' = (s, st_f))))) /\
  (exists st',
     (exists fuel, PoopFucker_do fuel [Loop [Simple DECREMENT_VALUE]] st3 = (Finished, st')) /\
     iterations [Simple DECREMENT_VALUE] 3 st3 st' /\
     nonzero st' = false /\
     mem_get (memory st') (pointer st') = JNum 0 /\
     (forall n st'', iterations [Simple DECREMENT_VALUE] n st3 st'' ->
                     nonzero st'' = false -> n = 3%nat /\ st'' = st')).
Proof.
  intros Hs Hcell. split.
  - split.
    + intros [fuel Hdo]. by apply (loop_run_iterations fuel value rest).
    + intros (n & st' & Hiter & Hend). by apply (iterations_loop_run value rest n st st').
  - destruct (countdown 3 st3 Hcell) as (st' & Hiter & Hzero & _).
    assert (Htest : nonzero st' = false).
    { unfold nonzero. rewrite Hzero. by apply bool_decide_eq_false; intros ?. }
    exists st'. split; [|split; [done|split; [done|split; [done|]]]].
    + apply (iterations_loop_run _ [] 3 st3 st'); [done|done|].
      left. split; [done|]. by exists 1%nat.
    + intros n st'' Hn Hend. by apply (iterations_unique _ _ _ _ Hiter Htest).
Qed.

Lemma loop_repeats_body_while_nonzero_witness :
  exists st',
    (exists fuel, PoopFucker_do fuel [Loop [Simple DECREMENT_VALUE]] cell3 = (Finished, st')) /\
    iterations [Simple DECREMENT_VALUE] 3 cell3 st' /\
    nonzero st' = false /\
    mem_get (memory st') (pointer st') = JNum 0 /\
    (forall n st'', iterations [Simple DECREMENT_VALUE] n cell3 st'' ->
                    nonzero st'' = false -> n = 3%nat /\ st'' = st').
Proof.
  apply (loop_repeats_body_while_nonzero [] [] cell3 Finished cell3 cell3).
  - discriminate.
  - reflexivity.
Defined.

(** The same loop run on [cell3], and a loop whose body moves the
    pointer: the test is made where the pointer is after each run of the
    body, so this loop ends after one run although the cell it was
    entered on still holds 1. *)
Example loop_three_times :
  PoopFucker_do 9 [Loop [Simple DECREMENT_VALUE]] cell3 =
  (Finished, {| pointer := 0;
                memory := {| elems := [JNum 0; JNull]; props := ∅ |};
                stdout := []; warnings := 0 |}).
Proof. reflexivity. Qed.

Example loop_tests_at_moved_pointer :
  PoopFucker_do 9 [Simple INCREMENT_VALUE; Loop [Simple INCREMENT_POINTER]] fresh =
  (Finished, {| pointer := 1;
                memory := {| elems := [JNum 1; JNum 0; JNull]; props := ∅ |};
                stdout := []; warnings := 0 |}).
Proof. reflexivity. Qed.

(** C2.  The lexer does not end on every text.  On the one-character
    text U+3046, the first character of a token, no turn of its loop
    throws and none advances: whatever the fuel, there is neither a
    marker sequence nor an error. *)
Theorem tokenize_never_ends_on_truncated_token :
  forall fuel, tokenize fuel [0x3046] = NoFuel.
Proof. intros fuel. by apply (tokenize_truncated [] [0x3046]); set_solver. Qed.

(** C6.  A text that ends inside a token is neither white space, nor a
    comment, nor a valid token, and yet no InvalidToken is reported for
    it: after the valid token of [mC], the three characters U+3046
    U+3093 U+3061 keep the lexer turning for ever.  (Where one of the
    four characters is out of place the error is thrown as described,
    with the character and its position counted from one:
    [tokenize_turn_invalid].) *)
Theorem truncated_token_is_not_reported :
  forall fuel,
    tokenize fuel (source_of [mC] ++ [0x3046; 0x3093; 0x3061]) = NoFuel /\
    forall c errorAt,
      tokenize fuel (source_of [mC] ++ [0x3046; 0x3093; 0x3061])
        <> Throw (InvalidToken c errorAt).
Proof.
  intros fuel.
  assert (H : tokenize fuel (source_of [mC] ++ [0x3046; 0x3093; 0x3061]) = NoFuel)
    by (apply tokenize_truncated; set_solver).
  split; [done|]. intros c errorAt. by rewrite H.
Qed.

(** The error the lexer does report: a wrong character inside a token,
    here the Latin letter x as third character, at position 3. *)
Example invalid_token_reported :
  tokenize 5 [0x3046; 0x3093; 0x78] = Throw (InvalidToken 0x78 3).
Proof. reflexivity. Qed.

(** C3.  A marker sequence that ends while loops are still open is
    parsed without an error: [instructions] at top level, an unmatched
    LoopStart, and whatever follows it up to the end of the input (which
    may leave further loops open, [opened]) give the tree of
    [instructions] followed by one [Loop] node that holds everything
    parsed behind the LoopStart. *)
Theorem unclosed_loop_is_not_diagnosed instructions body opened :
  parsed_shape instructions = true ->
  parsed_shape body = true ->
  forallb parsed_shape opened = true ->
  parse (encode instructions ++ [mA; mB] ++ encode_open body opened)
    = Return (instructions ++ [Loop (close_open body opened)]).
Proof.
  intros Hshape Hbody Hopened.
  assert (Hall : forallb parsed_shape (body :: opened) = true)
    by (simpl; by rewrite Hbody, Hopened).
  change (encode instructions ++ [mA; mB] ++ encode_open body opened)
    with (encode_open instructions (body :: opened)).
  destruct (parses_open (body :: opened) instructions
              (encode_open instructions (body :: opened)) [] 0 0 [] Hshape Hall)
    as (current' & loopDepth' & Hparses & _); [done|done|].
  rewrite (parse_parses _ _ (length_encode_open _ _ Hshape Hall) Hparses).
  done.
Qed.

Lemma unclosed_loop_is_not_diagnosed_witness :
  parse (encode [Simple INCREMENT_VALUE] ++ [mA; mB]
           ++ encode_open [Simple DECREMENT_VALUE] [[Simple OUT]])
    = Return ([Simple INCREMENT_VALUE]
                ++ [Loop (close_open [Simple DECREMENT_VALUE] [[Simple OUT]])]).
Proof.
  apply (unclosed_loop_is_not_diagnosed [Simple INCREMENT_VALUE]
           [Simple DECREMENT_VALUE] [[Simple OUT]]); reflexivity.
Defined.

Example unclosed_loop_parsed :
  parse [mC; mC; mA; mB; mA; mA] =
  Return [Simple INCREMENT_VALUE; Loop [Simple DECREMENT_VALUE]].
Proof. reflexivity. Qed.

(** C4.  Every tree [parse] returns has only executable pairs in its
    [Simple] nodes, at any depth, and a run of the executor over it
    throws no error, UndefinedInstruction included, from any runtime and
    however long it lasts. *)
Theorem parsed_tree_is_executable tokens instructions :
  parse tokens = Return instructions ->
  parsed_shape instructions = true /\
  forall fuel st s st',
    PoopFucker_do fuel instructions st = (s, st') ->
    s <> Threw UndefinedInstruction /\ forall e, s <> Threw e.
Proof.
  intros Hparse. pose proof (parse_shape _ _ Hparse) as Hshape.
  split; [done|]. intros fuel st s st' Hdo.
  destruct (PoopFucker_do_shape fuel _ _ _ _ Hshape Hdo) as [Hs _]. done.
Qed.

Lemma parsed_tree_is_executable_witness :
  parsed_shape [Simple INCREMENT_VALUE; Loop [Simple DECREMENT_VALUE]; Simple OUT] = true /\
  forall fuel st s st',
    PoopFucker_do fuel [Simple INCREMENT_VALUE; Loop [Simple DECREMENT_VALUE]; Simple OUT] st
      = (s, st') ->
    s <> Threw UndefinedInstruction /\ forall e, s <> Threw e.
Proof.
  apply (parsed_tree_is_executable [mC; mC; mA; mB; mA; mA; mB; mA; mA; mC]).
  reflexivity.
Defined.

(** The branch exists: a tree the parser cannot build reaches it. *)
Example undefined_instruction_reachable_by_hand :
  PoopFucker_do 2 [Simple LOOP_END] fresh = (Threw UndefinedInstruction, fresh).
Proof. reflexivity. Qed.

(** C5.  Wherever the parser reads the pair (C,A) as an instruction, the
    call throws UnsupportedInput, whatever the loop depth and whatever
    was parsed so far; so a marker sequence in which the pair comes
    behind a program that has held so far, inside any number of open
    loops, is refused by [parse] with that error.  Hence no tree [parse]
    returns holds an Input node, a run over such a tree never calls
    [console.warn], and the branch itself, were it reached, changes
    neither pointer, memory nor output. *)
Theorem input_is_a_parse_error instructions opened rest :
  parsed_shape instructions = true ->
  forallb parsed_shape opened = true ->
  (length rest mod 2 = 0)%nat ->
  (forall fuel tokens current loopDepth parsed,
     tokens !! current = Some mC -> tokens !! S current = Some mA ->
     parseRecursively (S fuel) tokens current loopDepth parsed = Throw UnsupportedInput) /\
  parse (encode_open instructions opened ++ [mC; mA] ++ rest) = Throw UnsupportedInput /\
  (forall tokens tree,
     parse tokens = Return tree ->
     forallb (all_simple (fun value => bool_decide (value <> IN))) tree = true /\
     forall fuel st s st',
       PoopFucker_do fuel tree st = (s, st') -> warnings st' = warnings st) /\
  (forall st, exists st',
     exec IN st = inl st' /\
     pointer st' = pointer st /\ memory st' = memory st /\ stdout st' = stdout st).
Proof.
  intros Hshape Hopened Heven.
  assert (Hlocal : forall fuel tokens current loopDepth parsed,
     tokens !! current = Some mC -> tokens !! S current = Some mA ->
     parseRecursively (S fuel) tokens current loopDepth parsed = Throw UnsupportedInput).
  { intros fuel tokens current loopDepth parsed Ha Hb.
    rewrite parseRecursively_S, Ha, Hb. cbv zeta. by repeat case_decide. }
  split; [exact Hlocal|]. split; [|split].
  - set (tokens := encode_open instructions opened ++ [mC; mA] ++ rest).
    assert (Hlen : (length tokens mod 2 = 0)%nat).
    { unfold tokens. rewrite !length_app. simpl length.
      pose proof (length_encode_open _ _ Hshape Hopened). parity. }
    rewrite (parse_parses tokens (Throw UnsupportedInput) Hlen); [done|].
    apply (parses_open_throw opened _ instructions tokens [] ([mC; mA] ++ rest));
      [done..|].
    intros loopDepth' instructions'. exists 1%nat. split; [|done].
    destruct (lookup_pair (encode_open instructions opened) rest mC mA) as [Ha Hb].
    by apply Hlocal.
  - intros tokens tree Hparse. pose proof (parse_shape _ _ Hparse) as Htree. split.
    + clear Hparse. revert Htree.
      induction tree as [|value tree' IH|value tree' IHvalue IH] using forest_ind;
        [done|..]; rewrite parsed_shape_cons; intros [Hn Hrest]%andb_prop; simpl.
      * rewrite (IH Hrest), andb_true_r. apply bool_decide_eq_true. intros ->. done.
      * by rewrite (IH Hrest), (IHvalue Hn).
    + intros fuel st s st' Hdo.
      by destruct (PoopFucker_do_shape fuel _ _ _ _ Htree Hdo).
  - intros st. eexists. by split.
Qed.

Lemma input_is_a_parse_error_witness :
  parse (encode_open [Simple INCREMENT_VALUE] [[Simple OUT]] ++ [mC; mA] ++ [mB; mA])
    = Throw UnsupportedInput.
Proof.
  apply (input_is_a_parse_error [Simple INCREMENT_VALUE] [[Simple OUT]] [mB; mA]);
    reflexivity.
Defined.

(** The branch of the executor exists and only warns; a tree the parser
    cannot build reaches it. *)
Example input_branch_reachable_by_hand :
  PoopFucker_do 2 [Simple IN] fresh =
  (Finished, {| pointer := 0; memory := memory fresh; stdout := []; warnings := 1 |}).
Proof. reflexivity. Qed.

(** C7.  A LoopEnd pair read while no loop is open makes the call throw
    UnmatchedLoopEnd: a marker sequence in which the pair comes behind
    complete instructions is refused by [parse], and [runCode] then
    creates no runtime, carries out no instruction and writes nothing.
    Read while a loop is open, the pair ends the running block: the
    call hands back the instructions it had, unchanged, with the depth
    one less; in the tree, the loop is one [Loop] node and nothing
    stands for its LoopEnd. *)
Theorem loop_end_ends_block_or_fails instructions body after rest :
  parsed_shape instructions = true ->
  parsed_shape body = true ->
  parsed_shape after = true ->
  (length rest mod 2 = 0)%nat ->
  (forall fuel tokens current parsed,
     tokens !! current = Some mB -> tokens !! S current = Some mA ->
     parseRecursively (S fuel) tokens current 0 parsed = Throw UnmatchedLoopEnd /\
     forall loopDepth,
       parseRecursively (S fuel) tokens current (S loopDepth) parsed
         = Return (parsed, S current, loopDepth)) /\
  parse (encode instructions ++ [mB; mA] ++ rest) = Throw UnmatchedLoopEnd /\
  (forall lex_fuel do_fuel code,
     tokenize lex_fuel code = Return (encode instructions ++ [mB; mA] ++ rest) ->
     runCode lex_fuel do_fuel code = ParseFailed (Throw UnmatchedLoopEnd) /\
     written (runCode lex_fuel do_fuel code) = []) /\
  parse (encode instructions ++ [mA; mB] ++ encode body ++ [mB; mA] ++ encode after)
    = Return (instructions ++ [Loop body] ++ after).
Proof.
  intros Hshape Hbody Hafter Heven.
  assert (Hlocal : forall fuel tokens current parsed,
     tokens !! current = Some mB -> tokens !! S current = Some mA ->
     parseRecursively (S fuel) tokens current 0 parsed = Throw UnmatchedLoopEnd /\
     forall loopDepth,
       parseRecursively (S fuel) tokens current (S loopDepth) parsed
         = Return (parsed, S current, loopDepth)).
  { intros fuel tokens current parsed Ha Hb. split; [|intros loopDepth];
      rewrite parseRecursively_S, Ha, Hb; cbv zeta; repeat case_decide; try done.
    simpl. by rewrite Nat.sub_0_r. }
  assert (Hparse : parse (encode instructions ++ [mB; mA] ++ rest) = Throw UnmatchedLoopEnd).
  { set (tokens := encode instructions ++ [mB; mA] ++ rest).
    assert (Hlen : (length tokens mod 2 = 0)%nat).
    { unfold tokens. rewrite !length_app, (length_encode _ Hshape). simpl length. parity. }
    rewrite (parse_parses tokens (Throw UnmatchedLoopEnd) Hlen); [done|].
    apply (parses_forest instructions Hshape tokens [] ([mB; mA] ++ rest)); [done..|].
    exists 1%nat. split; [|done].
    destruct (lookup_pair (encode instructions) rest mB mA) as [Ha Hb].
    by apply Hlocal. }
  split; [exact Hlocal|]. split; [exact Hparse|]. split.
  - intros lex_fuel do_fuel code Hlex. unfold runCode. by rewrite Hlex, Hparse.
  - replace (encode instructions ++ [mA; mB] ++ encode body ++ [mB; mA] ++ encode after)
      with (encode (instructions ++ [Loop body] ++ after)).
    2:{ rewrite !encode_app. f_equal.
        change (encode [Loop body]) with (([mA; mB] ++ encode body ++ [mB; mA]) ++ []).
        by rewrite app_nil_r, <- !app_assoc. }
    apply parse_encode.
    rewrite !parsed_shape_app, Hshape, Hafter. simpl.
    fold (parsed_shape body). by rewrite Hbody.
Qed.

Lemma loop_end_ends_block_or_fails_witness :
  parse (encode [Simple INCREMENT_VALUE] ++ [mB; mA] ++ [mA; mC]) = Throw UnmatchedLoopEnd /\
  parse (encode [Simple INCREMENT_VALUE] ++ [mA; mB] ++ encode [Simple DECREMENT_VALUE]
           ++ [mB; mA] ++ encode [Simple OUT])
    = Return ([Simple INCREMENT_VALUE] ++ [Loop [Simple DECREMENT_VALUE]] ++ [Simple OUT]).
Proof.
  destruct (loop_end_ends_block_or_fails [Simple INCREMENT_VALUE] [Simple DECREMENT_VALUE]
              [Simple OUT] [mA; mC]) as (_ & Hfail & _ & Hloop); try reflexivity.
  exact (conj Hfail Hloop).
Defined.

Example unmatched_loop_end_writes_nothing :
  runCode 9 9 (source_of [mC; mC; mA; mC; mB; mA]) = ParseFailed (Throw UnmatchedLoopEnd).
Proof. reflexivity. Qed.

(** C8.  IncrementPointer always succeeds and adds one to the pointer.
    On a tape of the expected shape, when the pointer thereby leaves the
    last cell (it lands on the trailing [null]), the tape gets exactly
    one more cell, holding 0, and a new trailing [null]; when it lands
    on a cell, the memory is left as it is.  On a fresh runtime,
    IncrementPointer followed by Output ends without an error and
    writes the character of code 0. *)
Theorem increment_pointer_extends_tape cells st :
  tape_ok cells st ->
  (exists st',
     exec INCREMENT_POINTER st = inl st' /\
     pointer st' = pointer st + 1 /\
     stdout st' = stdout st /\
     (pointer st + 1 = Z.of_nat (length cells) ->
      elems (memory st') = (JNum <$> cells ++ [0]) ++ [JNull] /\
      tape_ok (cells ++ [0]) st') /\
     (pointer st + 1 < Z.of_nat (length cells) -> memory st' = memory st)) /\
  (forall st0, exists st',
     exec INCREMENT_POINTER st0 = inl st' /\ pointer st' = pointer st0 + 1) /\
  (exists st2,
     PoopFucker_do 3 [Simple INCREMENT_POINTER; Simple OUT] fresh = (Finished, st2) /\
     pointer st2 = 1 /\
     elems (memory st2) = [JNum 0; JNum 0; JNull] /\
     stdout st2 = [0]).
Proof.
  intros Hok. split; [|split; [|by eexists]].
  2:{ intros st0. eexists. split; reflexivity. }
  destruct (exec INCREMENT_POINTER st) as [st'|e] eqn:Hexec; [|done].
  exists st'. split; [done|].
  destruct (exec_tape_ok _ _ _ _ Hok Hexec) as (cells' & Hok' & Hgrow).
  pose proof Hok as (_ & _ & Hptr & _).
  assert (Hnull := tape_get_null cells st (pointer st + 1) Hok ltac:(lia)).
  unfold exec in Hexec. simpl in Hexec.
  destruct (decide (mem_get (memory st) (pointer st + 1) = JNull)) as [Hend|Hcell];
    injection Hexec as <-; simpl; (split; [done|]); (split; [done|]); split.
  - intros _. apply Hnull in Hend.
    destruct Hgrow as [Hlen|[_ ->]].
    + destruct Hok' as (_ & _ & Hptr' & _). simpl in Hptr'. lia.
    + split; [|exact Hok']. destruct Hok' as (_ & Helems' & _). exact Helems'.
  - intros Hlt. apply Hnull in Hend. lia.
  - intros Heq. by apply Hnull in Heq.
  - done.
Qed.

Lemma increment_pointer_extends_tape_witness :
  exists st',
    exec INCREMENT_POINTER fresh = inl st' /\
    pointer st' = pointer fresh + 1 /\
    stdout st' = stdout fresh /\
    (pointer fresh + 1 = Z.of_nat (length [0]) ->
     elems (memory st') = (JNum <$> [0] ++ [0]) ++ [JNull] /\
     tape_ok ([0] ++ [0]) st') /\
    (pointer fresh + 1 < Z.of_nat (length [0]) -> memory st' = memory fresh).
Proof.
  exact (proj1 (increment_pointer_extends_tape [0] fresh tape_ok_fresh)).
Defined.

(** C9 as written does not hold: two valid tokens give two markers and
    these give one instruction, not two. *)
Lemma two_tokens_are_one_instruction :
  length [mC; mC] = 2%nat /\
  tokenize 3 (source_of [mC; mC]) = Return [mC; mC] /\
  parse [mC; mC] = Return [Simple INCREMENT_VALUE] /\
  pairs [Simple INCREMENT_VALUE] = 1%nat /\
  count [Simple INCREMENT_VALUE] = 1%nat /\
  ~ (forall ms instructions,
       (length ms mod 2 = 0)%nat ->
       tokenize (S (length ms)) (source_of ms) = Return ms ->
       parse ms = Return instructions ->
       pairs instructions = length ms).
Proof.
  repeat (split; [reflexivity|]).
  intros H. specialize (H [mC; mC] [Simple INCREMENT_VALUE]).
  discriminate H; reflexivity.
Qed.

(** C9, amended.  The text made of the [N] valid tokens that spell a
    tree with matched loops is read back by the lexer as those [N]
    markers, [N] is even, and the parser reads the markers back as the
    tree, which accounts for [N / 2] marker pairs, the LoopStart and
    LoopEnd of each loop counted. *)
Theorem tokens_round_trip instructions fuel :
  parsed_shape instructions = true ->
  (length (encode instructions) < fuel)%nat ->
  tokenize fuel (source_of (encode instructions)) = Return (encode instructions) /\
  parse (encode instructions) = Return instructions /\
  length (encode instructions) = (2 * pairs instructions)%nat.
Proof.
  intros Hshape Hfuel.
  split; [by apply tokenize_source_of|].
  split; [by apply parse_encode|by apply length_encode].
Qed.

Lemma tokens_round_trip_witness :
  tokenize 9 (source_of (encode [Simple INCREMENT_VALUE; Loop [Simple DECREMENT_VALUE]]))
    = Return (encode [Simple INCREMENT_VALUE; Loop [Simple DECREMENT_VALUE]]) /\
  parse (encode [Simple INCREMENT_VALUE; Loop [Simple DECREMENT_VALUE]])
    = Return [Simple INCREMENT_VALUE; Loop [Simple DECREMENT_VALUE]] /\
  length (encode [Simple INCREMENT_VALUE; Loop [Simple DECREMENT_VALUE]])
    = (2 * pairs [Simple INCREMENT_VALUE; Loop [Simple DECREMENT_VALUE]])%nat.
Proof.
  apply (tokens_round_trip [Simple INCREMENT_VALUE; Loop [Simple DECREMENT_VALUE]] 9).
  - reflexivity.
  - simpl. lia.
Defined.

(** C10.  The fresh runtime has the shape [tape_ok]: integer cells
    followed by exactly one [null], and the pointer at most on the last
    cell.  Every run from it, however it ends and wherever it is cut,
    leaves a runtime of that shape; and one more instruction carried out
    from there leaves the number of cells as it is, unless it is
    IncrementPointer, which may add one cell, holding 0, at the end. *)
Theorem tape_shape_is_invariant fuel instructions s st :
  PoopFucker_do fuel instructions fresh = (s, st) ->
  tape_ok [0] fresh /\
  exists cells,
    tape_ok cells st /\
    forall value st',
      exec value st = inl st' ->
      exists cells',
        tape_ok cells' st' /\
        (length cells' = length cells \/
         (value = INCREMENT_POINTER /\ cells' = cells ++ [0])).
Proof.
  intros Hdo. split; [exact tape_ok_fresh|].
  destruct (PoopFucker_do_tape_ok fuel _ _ _ _ _ tape_ok_fresh Hdo) as [cells Hok].
  exists cells. split; [done|].
  intros value st' Hexec. by apply (exec_tape_ok value cells st st').
Qed.

Lemma tape_shape_is_invariant_witness :
  tape_ok [0] fresh /\
  exists cells,
    tape_ok cells
      {| pointer := -1;
         memory := {| elems := [JNum 0; JNum 1; JNull]; props := {[ -1 := JNaN ]} |};
         stdout := []; warnings := 0 |} /\
    forall value st',
      exec value
        {| pointer := -1;
           memory := {| elems := [JNum 0; JNum 1; JNull]; props := {[ -1 := JNaN ]} |};
           stdout := []; warnings := 0 |} = inl st' ->
      exists cells',
        tape_ok cells' st' /\
        (length cells' = length cells \/
         (value = INCREMENT_POINTER /\ cells' = cells ++ [0])).
Proof.
  apply (tape_shape_is_invariant 9
           [Simple INCREMENT_POINTER; Simple INCREMENT_VALUE; Simple DECREMENT_POINTER;
            Simple DECREMENT_POINTER; Simple DECREMENT_VALUE] Finished).
  vm_compute. reflexivity.
Defined.

(** * Further properties of the code *)

(** ** White space, comments and tokens *)

Module TextFacts.
Import Lexer Text LexerFacts.

(** [current] is inside the input when something follows it. *)
Lemma within (pre s : list Z) :
  s <> [] -> (length pre <? length (pre ++ s))%nat = true.
Proof.
  intros Hs. apply Nat.ltb_lt. rewrite length_app. destruct s; [done|simpl; lia].
Qed.

Lemma find_closer_eq n input current :
  find_closer n input current =
  if decide (substr input current 2 = [0x2A; 0x2F]) then Return current
  else if (length input <=? current + 2)%nat then Throw UnclosedComment
  else match n with
       | O => NoFuel
       | S n' => find_closer n' input (S current)
       end.
Proof. by destruct n. Qed.

(** Two characters of a body without closer are not the closer. *)
Lemma has_closer_head a b body :
  has_closer (a :: b :: body) = false -> [a; b] <> [0x2A; 0x2F].
Proof.
  simpl. intros H [= -> ->]. simpl in H. done.
Qed.

Lemma has_closer_tail a body : has_closer (a :: body) = false -> has_closer body = false.
Proof.
  destruct body as [|b body]; [done|]. simpl.
  by intros [_ H]%orb_false_elim.
Qed.

(** The scan of a comment whose body holds no closer stops on the
    closer behind the body. *)
Lemma find_closer_closed body : forall n input pre rest current,
  input = pre ++ body ++ [0x2A; 0x2F] ++ rest ->
  current = length pre ->
  has_closer body = false -> (length body <= n)%nat ->
  find_closer n input current = Return (current + length body)%nat.
Proof.
  induction body as [|a body IH]; intros n input pre rest current -> -> Hbody Hn;
    rewrite find_closer_eq, substr_at.
  - simpl. by rewrite Nat.add_0_r.
  - destruct (decide (take 2 ((a :: body) ++ [42; 47] ++ rest) = [42; 47])) as [Heq|_].
    { exfalso. destruct body as [|b body]; simpl in Heq; [congruence|].
      by apply (has_closer_head a b body). }
    match goal with |- context [(?x <=? ?y)%nat] =>
      destruct (x <=? y)%nat eqn:Hlen end.
    { apply Nat.leb_le in Hlen. rewrite !length_app in Hlen. simpl in Hlen. lia. }
    destruct n as [|n]; [simpl in Hn; lia|].
    rewrite (IH n _ (pre ++ [a]) rest (S (length pre))).
    + f_equal. simpl. lia.
    + by rewrite <- !app_assoc.
    + rewrite length_app. simpl. lia.
    + by apply (has_closer_tail a).
    + simpl in Hn. lia.
Qed.

(** Without a closer up to the end of the input, the scan throws. *)
Lemma find_closer_unclosed body : forall n input pre current,
  input = pre ++ body ->
  current = length pre ->
  has_closer body = false -> (length body <= n)%nat ->
  find_closer n input current = Throw UnclosedComment.
Proof.
  induction body as [|a body IH]; intros n input pre current -> -> Hbody Hn;
    rewrite find_closer_eq, substr_at.
  - simpl. rewrite app_nil_r.
    by replace (length pre <=? length pre + 2)%nat with true
      by (symmetry; apply Nat.leb_le; lia).
  - destruct (decide (take 2 (a :: body) = [42; 47])) as [Heq|_].
    { exfalso. destruct body as [|b body]; simpl in Heq; [congruence|].
      by apply (has_closer_head a b body). }
    match goal with |- context [(?x <=? ?y)%nat] =>
      destruct (x <=? y)%nat eqn:Hlen end; [done|].
    destruct n as [|n]; [simpl in Hn; lia|].
    apply (IH n _ (pre ++ [a])).
    + by rewrite <- !app_assoc.
    + rewrite length_app. simpl. lia.
    + by apply (has_closer_tail a).
    + simpl in Hn. lia.
Qed.

(** The turn taken on a white-space character. *)
Lemma tokenize_turn_space pre c rest tokens :
  is_space c = true ->
  tokenize_turn (pre ++ c :: rest) (length pre) tokens = Next (S (length pre)) tokens.
Proof.
  intros Hc. unfold tokenize_turn.
  rewrite within by done.
  simpl negb. cbv iota.
  rewrite list_lookup_middle by done. simpl. by rewrite Hc.
Qed.

(** The turn taken on the opener of a closed comment. *)
Lemma tokenize_turn_comment pre body rest tokens :
  has_closer body = false ->
  tokenize_turn (pre ++ [0x2F; 0x2A] ++ body ++ [0x2A; 0x2F] ++ rest) (length pre) tokens
    = Next (length pre + 2 + length body + 2) tokens.
Proof.
  intros Hbody. unfold tokenize_turn.
  rewrite within by done.
  simpl negb. cbv iota. rewrite !substr_at.
  simpl app at 2. rewrite list_lookup_middle by done.
  simpl from_option. cbv iota. simpl take.
  destruct (decide ([47; 42] = [47; 42])); [|done].
  rewrite (find_closer_closed body _ _ (pre ++ [47; 42]) rest (S (S (length pre)))).
  - f_equal. lia.
  - by rewrite <- !app_assoc.
  - rewrite length_app. simpl. lia.
  - done.
  - rewrite !length_app. simpl. lia.
Qed.

(** The turn taken on the opener of a comment that is not closed. *)
Lemma tokenize_turn_unclosed pre body tokens :
  has_closer body = false ->
  tokenize_turn (pre ++ [0x2F; 0x2A] ++ body) (length pre) tokens
    = Stop (Throw UnclosedComment).
Proof.
  intros Hbody. unfold tokenize_turn.
  rewrite within by done.
  simpl negb. cbv iota. rewrite !substr_at.
  simpl app at 2. rewrite list_lookup_middle by done.
  simpl from_option. cbv iota. simpl take.
  destruct (decide ([47; 42] = [47; 42])); [|done].
  rewrite (find_closer_unclosed body _ _ (pre ++ [47; 42]) (S (S (length pre)))).
  - done.
  - by rewrite <- !app_assoc.
  - rewrite length_app. simpl. lia.
  - done.
  - rewrite !length_app. simpl. lia.
Qed.

Lemma render_cons x xs : render (x :: xs) = render_lexeme x ++ render xs.
Proof. reflexivity. Qed.

(** The turn taken at the start of a lexeme. *)
Lemma tokenize_turn_lexeme x pre rest tokens :
  well_formed x = true ->
  tokenize_turn (pre ++ render_lexeme x ++ rest) (length pre) tokens =
  Next (length pre + length (render_lexeme x)) (tokens ++ markers [x]).
Proof.
  intros Hx. destruct x as [c|body|m]; simpl in Hx; simpl markers.
  - rewrite app_nil_r. simpl. rewrite tokenize_turn_space by done. f_equal. lia.
  - apply negb_true_iff in Hx. rewrite app_nil_r.
    change (render_lexeme (Comment body)) with ([47; 42] ++ body ++ [42; 47]).
    rewrite <- !app_assoc. rewrite tokenize_turn_comment by done.
    f_equal. rewrite !length_app. simpl. lia.
  - simpl render_lexeme. rewrite tokenize_turn_token. by destruct m.
Qed.

(** One turn per lexeme: the lexer goes through a well-formed text and
    keeps the markers of its tokens. *)
Lemma tokenize_from_render xs : forall fuel input pre rest current tokens,
  input = pre ++ render xs ++ rest ->
  current = length pre ->
  forallb well_formed xs = true ->
  tokenize_from (length xs + fuel) input current tokens =
  tokenize_from fuel input (current + length (render xs)) (tokens ++ markers xs).
Proof.
  induction xs as [|x xs IH]; intros fuel input pre rest current tokens -> -> Hxs.
  - simpl. by rewrite Nat.add_0_r, app_nil_r.
  - simpl in Hxs. apply andb_prop in Hxs as [Hx Hxs].
    rewrite render_cons. simpl length at 1. rewrite Nat.add_succ_l, tokenize_from_S.
    rewrite <- app_assoc, tokenize_turn_lexeme by done.
    rewrite (IH fuel _ (pre ++ render_lexeme x) rest
               (length pre + length (render_lexeme x))%nat); [|by rewrite <- !app_assoc
               |by rewrite length_app|done].
    f_equal.
    + rewrite length_app. lia.
    + rewrite <- app_assoc. f_equal. by destruct x.
Qed.

(** What the lexer answers behind a well-formed text is its answer for
    the whole text. *)
Lemma tokenize_render_then xs rest fuel :
  forallb well_formed xs = true ->
  tokenize (length xs + fuel) (render xs ++ rest) =
  tokenize_from fuel (render xs ++ rest) (length (render xs)) (markers xs).
Proof.
  intros Hxs. unfold tokenize.
  by rewrite (tokenize_from_render xs fuel _ [] rest 0%nat []).
Qed.

End TextFacts.

Module LexerErrors.
Import Lexer Text LexerFacts TextFacts.

Lemma render_app xs ys : render (xs ++ ys) = render xs ++ render ys.
Proof. unfold render. by rewrite fmap_app, concat_app. Qed.

Lemma find_closer_throw n : forall input current e,
  find_closer n input current = Throw e -> e = UnclosedComment.
Proof.
  induction n as [|n IH]; intros input current e; rewrite find_closer_eq;
    destruct (decide _); try done;
    destruct (_ <=? _)%nat; try done; try congruence.
  apply IH.
Qed.

(** An error thrown in a turn is the unclosed comment, or names a
    character of the input behind [current] and its position counted
    from one. *)
Lemma tokenize_turn_throw input current tokens e :
  tokenize_turn input current tokens = Stop (Throw e) ->
  e = UnclosedComment \/
  exists i c, e = InvalidToken c (current + i + 1) /\ input !! (current + i)%nat = Some c.
Proof.
  unfold tokenize_turn.
  destruct (current <? length input)%nat; [|done]. simpl negb. cbv iota.
  destruct (from_option is_space false (input !! current)); [done|].
  destruct (decide (substr input current 2 = [47; 42])).
  { destruct (find_closer (length input) input (S (S current))) as [?|e1|] eqn:Hscan;
      try done.
    intros [= <-]. left. by apply find_closer_throw in Hscan. }
  cbv zeta.
  destruct (valid_token (substr input current 4)); [done|].
  destruct (first_invalid 0 (substr input current 4)) as [[i c]|] eqn:Hinvalid; [|done].
  intros [= <-]. right. exists i, c. split; [done|].
  apply first_invalid_lookup in Hinvalid as [_ Hc].
  unfold substr in Hc. rewrite Nat.sub_0_r in Hc.
  apply lookup_take_Some in Hc as [Hc _]. by rewrite lookup_drop in Hc.
Qed.

Lemma tokenize_from_throw fuel : forall input current tokens e,
  tokenize_from fuel input current tokens = Throw e ->
  e = UnclosedComment \/
  exists c errorAt,
    e = InvalidToken c errorAt /\ (1 <= errorAt)%nat /\
    input !! (errorAt - 1)%nat = Some c.
Proof.
  induction fuel as [|fuel IH]; intros input current tokens e; [done|].
  rewrite tokenize_from_S.
  destruct (tokenize_turn input current tokens) as [current' tokens'|r] eqn:Hturn.
  - apply IH.
  - intros ->. apply tokenize_turn_throw in Hturn as [->|(i & c & -> & Hc)]; [by left|].
    right. exists c, (current + i + 1)%nat. split; [done|]. split; [lia|].
    by replace (current + i + 1 - 1)%nat with (current + i)%nat by lia.
Qed.

End LexerErrors.

Import Lexer Text LexerFacts TextFacts LexerErrors.

(** X1.  White space and comments are skipped: a text made of
    white-space characters, of comments whose body does not hold the
    closer, and of valid tokens, in any order, is read as the markers of
    its tokens, in one turn of the loop per piece.  A text without
    tokens gives the empty sequence. *)
Theorem lexer_skips_space_and_comments xs fuel :
  forallb well_formed xs = true ->
  (length xs < fuel)%nat ->
  tokenize fuel (render xs) = Return (markers xs).
Proof.
  intros Hxs Hfuel.
  replace fuel with (length xs + S (fuel - length xs - 1))%nat by lia.
  rewrite <- (app_nil_r (render xs)), tokenize_render_then by done.
  rewrite tokenize_from_S, tokenize_turn_end; [done|]. rewrite app_nil_r. lia.
Qed.

Lemma lexer_skips_space_and_comments_witness :
  tokenize 5 (render [Space 0x20; Token mC; Comment [0x2A; 0x61]; Token mA])
    = Return (markers [Space 0x20; Token mC; Comment [0x2A; 0x61]; Token mA]).
Proof.
  apply (lexer_skips_space_and_comments
           [Space 0x20; Token mC; Comment [0x2A; 0x61]; Token mA] 5).
  - reflexivity.
  - simpl. lia.
Defined.

(** X2.  A comment opener with no closer behind it makes the lexer fail
    with UnclosedComment, whatever else follows the opener, and whatever
    well-formed text comes before it.  The star of the opener is not
    taken for the star of a closer: the text of the three characters
    U+002F U+002A U+002F is an unclosed comment. *)
Theorem unclosed_comment_is_reported xs body fuel :
  forallb well_formed xs = true ->
  has_closer body = false ->
  (length xs < fuel)%nat ->
  tokenize fuel (render xs ++ [0x2F; 0x2A] ++ body) = Throw UnclosedComment.
Proof.
  intros Hxs Hbody Hfuel.
  replace fuel with (length xs + S (fuel - length xs - 1))%nat by lia.
  rewrite tokenize_render_then by done.
  by rewrite tokenize_from_S, tokenize_turn_unclosed.
Qed.

Lemma unclosed_comment_is_reported_witness :
  tokenize 2 (render [Token mC] ++ [0x2F; 0x2A] ++ [0x2F]) = Throw UnclosedComment.
Proof.
  apply (unclosed_comment_is_reported [Token mC] [0x2F] 2).
  - reflexivity.
  - reflexivity.
  - simpl. lia.
Defined.

(** X3.  Behind a well-formed text, a character that is not white space
    and does not open a comment starts a window of up to four
    characters; when one of them is not the character a token has at
    that place, the lexer fails with InvalidToken for the first such
    character, and the position it reports is the position of that
    character in the whole text, counted from one. *)
Theorem invalid_token_is_located xs bad i c fuel :
  forallb well_formed xs = true ->
  (length xs < fuel)%nat ->
  from_option is_space false (head bad) = false ->
  take 2 bad <> [0x2F; 0x2A] ->
  first_invalid 0 (take 4 bad) = Some (i, c) ->
  tokenize fuel (render xs ++ bad)
    = Throw (InvalidToken c (length (render xs) + i + 1)) /\
  (render xs ++ bad) !! (length (render xs) + i)%nat = Some c.
Proof.
  intros Hxs Hfuel Hspace Hcomment Hinvalid.
  replace fuel with (length xs + S (fuel - length xs - 1))%nat by lia.
  rewrite tokenize_render_then by done. rewrite tokenize_from_S.
  destruct (tokenize_turn_invalid (render xs ++ bad) (length (render xs))
              (markers xs) i c) as [Hturn Hc].
  - rewrite length_app. destruct bad; [done|simpl; lia].
  - rewrite lookup_app_r by lia. rewrite Nat.sub_diag. by rewrite <- head_lookup.
  - by rewrite substr_at.
  - by rewrite substr_at.
  - by rewrite Hturn.
Qed.

Lemma invalid_token_is_located_witness :
  tokenize 3 (render [Token mC; Space 0x0A] ++ [0x3046; 0x20; 0x3093])
    = Throw (InvalidToken 0x20 (length (render [Token mC; Space 0x0A]) + 1 + 1)) /\
  (render [Token mC; Space 0x0A] ++ [0x3046; 0x20; 0x3093])
    !! (length (render [Token mC; Space 0x0A]) + 1)%nat = Some 0x20.
Proof.
  apply (invalid_token_is_located [Token mC; Space 0x0A] [0x3046; 0x20; 0x3093] 1 0x20 3).
  - reflexivity.
  - simpl. lia.
  - reflexivity.
  - discriminate.
  - reflexivity.
Defined.

(** X4.  A text that ends inside a token (after one, two or three of
    its characters) behind any well-formed text keeps the lexer in its
    loop for ever: no fuel gives a marker sequence or an error. *)
Theorem cut_token_after_text_hangs xs t fuel :
  forallb well_formed xs = true ->
  t ∈ [[0x3046]; [0x3046; 0x3093]; [0x3046; 0x3093; 0x3061]] ->
  tokenize fuel (render xs ++ t) = NoFuel.
Proof.
  intros Hxs Ht.
  destruct (decide (fuel <= length xs)%nat) as [Hle|Hgt].
  - rewrite <- (take_drop fuel xs), render_app, <- app_assoc.
    assert (Hlen : length (take fuel xs) = fuel) by (rewrite length_take; lia).
    pose proof (tokenize_render_then (take fuel xs) (render (drop fuel xs) ++ t) 0) as H.
    rewrite Hlen, Nat.add_0_r in H. rewrite H; [done|].
    rewrite <- (take_drop fuel xs), forallb_app in Hxs.
    by apply andb_prop in Hxs as [? _].
  - replace fuel with (length xs + (fuel - length xs))%nat by lia.
    rewrite tokenize_render_then by done.
    apply tokenize_from_stuck. by apply tokenize_turn_truncated.
Qed.

Lemma cut_token_after_text_hangs_witness :
  tokenize 1000 (render [Comment []; Token mA] ++ [0x3046; 0x3093]) = NoFuel.
Proof.
  apply (cut_token_after_text_hangs [Comment []; Token mA] [0x3046; 0x3093] 1000).
  - reflexivity.
  - set_solver.
Defined.

(** X5.  A text of which no end piece is the beginning of a token (it
    does not end after the first, second or third character of a token)
    is answered by the lexer within as many turns as it has characters,
    and one more: with a marker sequence or with an error. *)
Theorem lexer_ends_unless_token_is_cut input :
  (forall current,
     drop current input ∉ [[0x3046]; [0x3046; 0x3093]; [0x3046; 0x3093; 0x3061]]) ->
  (exists tokens, tokenize (S (length input)) input = Return tokens) \/
  (exists e, tokenize (S (length input)) input = Throw e).
Proof.
  intros Hwhole.
  pose proof (tokenize_from_total input Hwhole (S (length input)) 0 []
                ltac:(lia) ltac:(lia)) as Hends.
  unfold tokenize. destruct (tokenize_from _ _ _ _); [left|right|done]; by eexists.
Qed.

Lemma lexer_ends_unless_token_is_cut_witness :
  (exists tokens, tokenize (S (length [0x3046; 0x78])) [0x3046; 0x78] = Return tokens) \/
  (exists e, tokenize (S (length [0x3046; 0x78])) [0x3046; 0x78] = Throw e).
Proof.
  apply (lexer_ends_unless_token_is_cut [0x3046; 0x78]).
  intros [|[|[|current]]]; simpl; rewrite !elem_of_cons, elem_of_nil;
    intros [?|[?|[?|[]]]]; discriminate.
Defined.

(** X6.  The lexer throws only the two errors of its own.  When it
    throws InvalidToken, the position it reports lies in the text, and
    the character it reports is the character at that position. *)
Theorem lexer_errors_are_located fuel input e :
  tokenize fuel input = Throw e ->
  e = UnclosedComment \/
  exists c errorAt,
    e = InvalidToken c errorAt /\
    (1 <= errorAt <= length input)%nat /\
    input !! (errorAt - 1)%nat = Some c.
Proof.
  intros Hthrow. apply tokenize_from_throw in Hthrow as [->|(c & errorAt & -> & Hpos & Hc)];
    [by left|].
  right. exists c, errorAt. split; [done|]. split; [|done].
  apply lookup_lt_Some in Hc. lia.
Qed.

Lemma lexer_errors_are_located_witness :
  InvalidToken 0x78 3 = UnclosedComment \/
  exists c errorAt,
    InvalidToken 0x78 3 = InvalidToken c errorAt /\
    (1 <= errorAt <= length [0x3046; 0x3093; 0x78])%nat /\
    [0x3046; 0x3093; 0x78] !! (errorAt - 1)%nat = Some c.
Proof.
  apply (lexer_errors_are_located 5 [0x3046; 0x3093; 0x78]). reflexivity.
Defined.

(** ** What the parser read *)

Module ParserMore.
Import definedInstructions Parser Unparse ParserFacts.

Lemma closers_S k : closers (S k) = [mB; mA] ++ closers k.
Proof. reflexivity. Qed.

Lemma closers_add k1 k2 : closers (k1 + k2) = closers k1 ++ closers k2.
Proof. unfold closers. by rewrite replicate_add, concat_app. Qed.

Lemma length_closers k : length (closers k) = (2 * k)%nat.
Proof. induction k as [|k IH]; [done|]. rewrite closers_S, length_app, IH. simpl. lia. Qed.

(** The markers from [current] on start with the pair just read. *)
Lemma drop_pair (tokens : list marker) current m :
  tokens !! current = Some m ->
  drop current tokens =
    encode_pair (m, tokens !! S current) ++ drop (S (S current)) tokens.
Proof.
  intros Hm. rewrite (drop_S _ _ _ Hm).
  destruct (tokens !! S current) as [b|] eqn:Hb; simpl.
  - by rewrite (drop_S _ _ _ Hb).
  - apply lookup_ge_None in Hb. by rewrite !drop_ge by lia.
Qed.

(** The parser only throws the three errors of its loop. *)
Lemma parseRecursively_throw fuel : forall tokens current loopDepth instructions e,
  parseRecursively fuel tokens current loopDepth instructions = Throw e ->
  e ∈ [InvalidInstructionPair; UnsupportedInput; UnmatchedLoopEnd].
Proof.
  induction fuel as [|fuel IH]; intros tokens current loopDepth instructions e Hr; [done|].
  rewrite parseRecursively_S in Hr. cbv zeta in Hr.
  destruct (tokens !! current) as [m|]; [|done].
  repeat case_decide; try (injection Hr as <-; set_solver).
  - destruct (0 <? loopDepth)%nat; [done|]. injection Hr as <-. set_solver.
  - destruct (parseRecursively fuel tokens (S (S current)) (S loopDepth) [])
      as [[[value0 current0] loopDepth0]|e0|] eqn:Hinner; try done.
    + by apply IH in Hr.
    + injection Hr as <-. by apply IH in Hinner.
  - by apply IH in Hr.
Qed.

(** What a call hands back spells what it read.  When it comes back on
    a LoopEnd, the markers from where it started up to that LoopEnd are
    those of the instructions it added, and the LoopEnd.  When it comes
    back at the end of the array, the markers from where it started to
    the end, followed by one LoopEnd for each loop it leaves open, are
    those of the instructions it added. *)
Lemma parseRecursively_decode fuel :
  forall tokens current loopDepth instructions value current' loopDepth',
  parseRecursively fuel tokens current loopDepth instructions
    = Return (value, current', loopDepth') ->
  exists added,
    value = instructions ++ added /\
    (((current' < length tokens)%nat /\ (current < current')%nat /\
      loopDepth = S loopDepth' /\
      take (S current' - current) (drop current tokens) = encode added ++ [mB; mA])
     \/
     ((length tokens <= current')%nat /\ (current <= current')%nat /\
      exists k, loopDepth' = (loopDepth + k)%nat /\
                encode added = drop current tokens ++ closers k)).
Proof.
  induction fuel as [|fuel IH];
    intros tokens current loopDepth instructions value current' loopDepth' Hr; [done|].
  rewrite parseRecursively_S in Hr. cbv zeta in Hr.
  destruct (tokens !! current) as [m|] eqn:Hm.
  2:{ injection Hr as <- <- <-. apply lookup_ge_None in Hm.
      exists []. split; [by rewrite app_nil_r|]. right. split; [done|]. split; [done|].
      exists 0%nat. split; [lia|]. by rewrite drop_ge. }
  pose proof (drop_pair tokens current m Hm) as Hdrop.
  pose proof (lookup_lt_Some _ _ _ Hm) as Hlt.
  repeat case_decide; try done.
  - (* LoopEnd *)
    destruct (0 <? loopDepth)%nat eqn:Hdepth; [|done]. apply Nat.ltb_lt in Hdepth.
    injection Hr as <- <- <-.
    match goal with H : (m, tokens !! S current) = LOOP_END |- _ =>
      injection H as -> Hb end.
    exists []. split; [by rewrite app_nil_r|]. left.
    split; [by apply lookup_lt_Some in Hb|]. split; [lia|]. split; [lia|].
    rewrite Hdrop, Hb. simpl.
    by replace (S (S current) - current)%nat with 2%nat by lia.
  - (* LoopStart *)
    match goal with H : (m, tokens !! S current) = LOOP_START |- _ =>
      injection H as -> Hb end.
    rewrite Hb in Hdrop. simpl in Hdrop.
    destruct (parseRecursively fuel tokens (S (S current)) (S loopDepth) [])
      as [[[value1 current1] loopDepth1]|e1|] eqn:Hinner; try done.
    apply IH in Hinner as (added1 & Hvalue1 & Hinner). simpl in Hvalue1. subst value1.
    apply IH in Hr as (added2 & -> & Hrest).
    exists (Loop added1 :: added2). split; [by rewrite <- app_assoc|].
    rewrite encode_cons, encode_loop.
    destruct Hinner as [(Hin1 & Hcur1 & Hdepth1 & Htake1)|(Hend1 & Hcur1 & k1 & Hdepth1 & Henc1)].
    + injection Hdepth1 as <-.
      assert (Hsplit : drop (S (S current)) tokens =
                (encode added1 ++ [mB; mA]) ++ drop (S current1) tokens).
      { rewrite <- Htake1.
        rewrite <- (take_drop (S current1 - S (S current)) (drop (S (S current)) tokens))
          at 1.
        f_equal. rewrite drop_drop. f_equal. lia. }
      destruct Hrest as [(Hin2 & Hcur2 & Hdepth2 & Htake2)|(Hend2 & Hcur2 & k2 & Hdepth2 & Henc2)].
      * left. split; [done|]. split; [lia|]. split; [done|].
        rewrite Hdrop, Hsplit.
        replace (S current' - current)%nat
          with (S (S (length (encode added1 ++ [mB; mA]) + (S current' - S current1))))%nat.
        2:{ apply (f_equal length) in Htake1. rewrite length_take, length_drop in Htake1.
            lia. }
        rewrite !firstn_cons, take_app_add, Htake2.
        by rewrite <- !app_assoc.
      * right. split; [done|]. split; [lia|]. exists k2. split; [done|].
        rewrite Henc2, Hdrop, Hsplit. simpl. by rewrite <- !app_assoc.
    + destruct Hrest as [(Hin2 & Hcur2 & _)|(Hend2 & Hcur2 & k2 & Hdepth2 & Henc2)]; [lia|].
      right. split; [done|]. split; [lia|]. exists (k1 + S k2)%nat. split; [lia|].
      rewrite Henc1, Henc2, Hdrop, closers_add, closers_S.
      rewrite (drop_ge tokens (S current1)) by lia.
      simpl. by rewrite <- !app_assoc.
  - (* any other pair *)
    apply IH in Hr as (added2 & -> & Hrest).
    exists (Simple (m, tokens !! S current) :: added2).
    split; [by rewrite <- app_assoc|].
    rewrite encode_cons. simpl encode_node.
    destruct Hrest as [(Hin2 & Hcur2 & Hdepth2 & Htake2)|(Hend2 & Hcur2 & k2 & Hdepth2 & Henc2)].
    + left. split; [done|]. split; [lia|]. split; [done|].
      destruct (tokens !! S current) as [b|] eqn:Hb.
      2:{ apply lookup_ge_None in Hb. lia. }
      rewrite Hdrop. simpl.
      replace (S current' - current)%nat with (S (S (S current' - S (S current)))) by lia.
      simpl encode_pair. simpl app. by rewrite !firstn_cons, Htake2.
    + right. split; [done|]. split; [lia|]. exists k2. split; [done|].
      by rewrite Henc2, Hdrop, <- app_assoc.
Qed.

End ParserMore.

Import definedInstructions Parser Unparse Executor Driver.
Import ParserFacts ParserMore.

(** X7.  The parser answers every marker sequence: it returns a tree or
    throws, and what it throws is one of its four errors. *)
Theorem parser_always_answers tokens :
  (exists tree, parse tokens = Return tree) \/
  (exists e, parse tokens = Throw e /\
             e ∈ [OddTokenCount; InvalidInstructionPair; UnsupportedInput;
                  UnmatchedLoopEnd]).
Proof.
  unfold parse. destruct (negb _); [right; eexists; split; [done|by left]|].
  pose proof (parseRecursively_total (S (length tokens)) tokens 0 0 []
                ltac:(lia) ltac:(lia)) as Htotal.
  destruct (parseRecursively (S (length tokens)) tokens 0 0 [])
    as [[[tree current] loopDepth]|e|] eqn:Hparse; [by left; eexists| |done].
  right. exists e. split; [done|].
  apply parseRecursively_throw in Hparse. by apply elem_of_cons; right.
Qed.

(** X8.  The parser throws OddTokenCount on the marker sequences of odd
    length and on no other, whatever the markers are: an odd sequence
    is refused before any pair is read.  [runCode] then creates no
    runtime and writes nothing. *)
Theorem odd_token_count_iff_odd_length tokens :
  (parse tokens = Throw OddTokenCount <-> (length tokens mod 2 = 1)%nat) /\
  forall lex_fuel do_fuel code,
    tokenize lex_fuel code = Return tokens ->
    (length tokens mod 2 = 1)%nat ->
    runCode lex_fuel do_fuel code = ParseFailed (Throw OddTokenCount) /\
    written (runCode lex_fuel do_fuel code) = [].
Proof.
  assert (Hiff : parse tokens = Throw OddTokenCount <-> (length tokens mod 2 = 1)%nat).
  { unfold parse. destruct (length tokens mod 2 =? 0)%nat eqn:Hmod; cbn [negb].
    - apply Nat.eqb_eq in Hmod. split; [|lia].
      destruct (parseRecursively (S (length tokens)) tokens 0 0 [])
        as [[[tree current] loopDepth]|e|] eqn:Hparse; try done.
      intros [= ->]. apply parseRecursively_throw in Hparse.
      rewrite !elem_of_cons, elem_of_nil in Hparse. by destruct Hparse as [?|[?|[?|[]]]].
    - apply Nat.eqb_neq in Hmod. split; [|done]. intros _.
      pose proof (Nat.mod_upper_bound (length tokens) 2). lia. }
  split; [exact Hiff|].
  intros lex_fuel do_fuel code Hlex Hodd. apply Hiff in Hodd.
  unfold runCode. by rewrite Hlex, Hodd.
Qed.

Lemma odd_token_count_iff_odd_length_witness :
  runCode 9 9 (Lexer.source_of [mB; mB; mC])
    = ParseFailed (Throw OddTokenCount) /\
  written (runCode 9 9 (Lexer.source_of [mB; mB; mC])) = [].
Proof.
  apply (proj2 (odd_token_count_iff_odd_length [mB; mB; mC])); reflexivity.
Defined.

(** X9.  Wherever the parser reads the pair (B,B), at top level or
    inside any number of open loops, behind instructions it accepted,
    [parse] fails with InvalidInstructionPair. *)
Theorem invalid_pair_is_a_parse_error instructions opened rest :
  parsed_shape instructions = true ->
  forallb parsed_shape opened = true ->
  (length rest mod 2 = 0)%nat ->
  parse (encode_open instructions opened ++ [mB; mB] ++ rest)
    = Throw InvalidInstructionPair.
Proof.
  intros Hshape Hopened Heven.
  set (tokens := encode_open instructions opened ++ [mB; mB] ++ rest).
  assert (Hlen : (length tokens mod 2 = 0)%nat).
  { unfold tokens. rewrite !length_app. simpl length.
    pose proof (length_encode_open _ _ Hshape Hopened). parity. }
  rewrite (parse_parses tokens (Throw InvalidInstructionPair) Hlen); [done|].
  apply (parses_open_throw opened _ instructions tokens [] ([mB; mB] ++ rest)); [done..|].
  intros loopDepth' instructions'. exists 1%nat. split; [|done].
  destruct (lookup_pair (encode_open instructions opened) rest mB mB) as [Ha Hb].
  assert (Hlocal : forall tokens0 current,
            tokens0 !! current = Some mB -> tokens0 !! S current = Some mB ->
            parseRecursively 1 tokens0 current loopDepth' instructions'
              = Throw InvalidInstructionPair).
  { intros tokens0 current Ha0 Hb0. by rewrite parseRecursively_S, Ha0, Hb0. }
  by apply Hlocal.
Qed.

Lemma invalid_pair_is_a_parse_error_witness :
  parse (encode_open [Simple OUT] [[Simple INCREMENT_VALUE]] ++ [mB; mB] ++ [mC; mA])
    = Throw InvalidInstructionPair.
Proof.
  apply (invalid_pair_is_a_parse_error [Simple OUT] [[Simple INCREMENT_VALUE]] [mC; mA]);
    reflexivity.
Defined.

(** X10.  The tree [parse] returns spells the markers it was given:
    its marker sequence is the input, followed by one LoopEnd pair for
    each loop the input leaves open.  So two marker sequences of the
    same length that are parsed to the same tree are the same
    sequence. *)
Theorem parsed_tree_spells_the_markers tokens tree :
  parse tokens = Return tree ->
  (exists k, encode tree = tokens ++ closers k) /\
  forall tokens',
    length tokens' = length tokens -> parse tokens' = Return tree -> tokens' = tokens.
Proof.
  assert (Hspell : forall tokens0, parse tokens0 = Return tree ->
                     exists k, encode tree = tokens0 ++ closers k).
  { intros tokens0. unfold parse. destruct (negb _); [done|].
    destruct (parseRecursively (S (length tokens0)) tokens0 0 0 [])
      as [[[tree0 current] loopDepth]|e|] eqn:Hparse; try done.
    intros [= ->].
    apply parseRecursively_decode in Hparse
      as (added & -> & [(_ & _ & ? & _)|(_ & _ & k & _ & Henc)]); [done|].
    exists k. simpl in *. by rewrite Henc. }
  intros Hparse. split; [by apply Hspell|].
  intros tokens' Hlen Hparse'.
  destruct (Hspell _ Hparse) as [k Hk]. destruct (Hspell _ Hparse') as [k' Hk'].
  rewrite Hk in Hk'.
  assert (k = k').
  { apply (f_equal length) in Hk'. rewrite !length_app, !length_closers in Hk'. lia. }
  subst k'. by apply app_inv_tail in Hk'.
Qed.

Lemma parsed_tree_spells_the_markers_witness :
  (exists k, encode [Simple INCREMENT_VALUE; Loop [Simple DECREMENT_VALUE]]
             = [mC; mC; mA; mB; mA; mA] ++ closers k) /\
  forall tokens',
    length tokens' = length [mC; mC; mA; mB; mA; mA] ->
    parse tokens' = Return [Simple INCREMENT_VALUE; Loop [Simple DECREMENT_VALUE]] ->
    tokens' = [mC; mC; mA; mB; mA; mA].
Proof.
  apply (parsed_tree_spells_the_markers [mC; mC; mA; mB; mA; mA]). reflexivity.
Defined.

(** ** Runs of the executor *)

Module ExecutorMore.
Import definedInstructions Parser Executor ExecutorFacts.


(** One instruction only adds to what was written. *)
Lemma exec_stdout value st st' :
  exec value st = inl st' -> stdout st `prefix_of` stdout st'.
Proof.
  unfold exec. repeat case_decide; intros [= <-]; simpl; try done.
  by apply prefix_app_r.
Qed.

Lemma PoopFucker_do_stdout fuel : forall instructions st,
  stdout st `prefix_of` stdout (PoopFucker_do fuel instructions st).2.
Proof.
  induction fuel as [|fuel IH]; intros instructions st; [done|].
  rewrite PoopFucker_do_S. destruct instructions as [|[value|value] rest]; [done|..].
  - destruct (exec value st) as [st1|e] eqn:Hexec; [|done].
    etrans; [by eapply exec_stdout|apply IH].
  - destruct (nonzero st); [|apply IH].
    pose proof (IH value st) as Hbody.
    destruct (PoopFucker_do fuel value st) as [[] st1]; simpl in *; try done.
    etrans; [exact Hbody|apply IH].
Qed.

(** A program followed by another: when the first finishes, the second
    decides the end. *)
Lemma PoopFucker_do_app_finished fuel1 : forall p q st st1 fuel2 s st2,
  PoopFucker_do fuel1 p st = (Finished, st1) ->
  PoopFucker_do fuel2 q st1 = (s, st2) -> s <> OutOfFuel ->
  exists fuel, PoopFucker_do fuel (p ++ q) st = (s, st2).
Proof.
  induction fuel1 as [|fuel1 IH]; intros p q st st1 fuel2 s st2 Hp Hq Hs; [done|].
  rewrite PoopFucker_do_S in Hp. destruct p as [|[value|value] rest].
  - injection Hp as <-. by exists fuel2.
  - destruct (exec value st) as [st'|e] eqn:Hexec; [|done].
    destruct (IH _ _ _ _ _ _ _ Hp Hq Hs) as [fuel Hdo].
    exists (S fuel). simpl app. by rewrite PoopFucker_do_S, Hexec.
  - destruct (nonzero st) eqn:Htest.
    + destruct (PoopFucker_do fuel1 value st) as [[] st'] eqn:Hbody; try done.
      destruct (IH _ _ _ _ _ _ _ Hp Hq Hs) as [fuel Hdo].
      exists (S (fuel1 `max` fuel)). simpl app. rewrite PoopFucker_do_S, Htest.
      rewrite (PoopFucker_do_mono _ (fuel1 `max` fuel) _ _ _ _ Hbody) by (done || lia).
      apply (PoopFucker_do_mono _ (fuel1 `max` fuel) _ _ _ _ Hdo); [done|lia].
    + destruct (IH _ _ _ _ _ _ _ Hp Hq Hs) as [fuel Hdo].
      exists (S fuel). simpl app. by rewrite PoopFucker_do_S, Htest.
Qed.

(** When the first throws, the second is not run. *)
Lemma PoopFucker_do_app_threw fuel1 : forall p q st e st1,
  PoopFucker_do fuel1 p st = (Threw e, st1) ->
  exists fuel, PoopFucker_do fuel (p ++ q) st = (Threw e, st1).
Proof.
  induction fuel1 as [|fuel1 IH]; intros p q st e st1 Hp; [done|].
  rewrite PoopFucker_do_S in Hp. destruct p as [|[value|value] rest]; [done|..].
  - destruct (exec value st) as [st'|e'] eqn:Hexec.
    + destruct (IH _ q _ _ _ Hp) as [fuel Hdo].
      exists (S fuel). simpl app. by rewrite PoopFucker_do_S, Hexec.
    + exists 1%nat. simpl app. by rewrite PoopFucker_do_S, Hexec.
  - destruct (nonzero st) eqn:Htest.
    + destruct (PoopFucker_do fuel1 value st) as [[] st'] eqn:Hbody; try done.
      * destruct (IH _ q _ _ _ Hp) as [fuel Hdo].
        exists (S (fuel1 `max` fuel)). simpl app. rewrite PoopFucker_do_S, Htest.
        rewrite (PoopFucker_do_mono _ (fuel1 `max` fuel) _ _ _ _ Hbody) by (done || lia).
        apply (PoopFucker_do_mono _ (fuel1 `max` fuel) _ _ _ _ Hdo); [done|lia].
      * exists (S fuel1). simpl app. by rewrite PoopFucker_do_S, Htest, Hbody.
    + destruct (IH _ q _ _ _ Hp) as [fuel Hdo].
      exists (S fuel). simpl app. by rewrite PoopFucker_do_S, Htest.
Qed.

(** A run of two programs in a row that ends is a run of the first
    that finishes or throws. *)
Lemma PoopFucker_do_app_inv fuel : forall p q st s st2,
  PoopFucker_do fuel (p ++ q) st = (s, st2) -> s <> OutOfFuel ->
  (exists st1, (exists fuel1, PoopFucker_do fuel1 p st = (Finished, st1)) /\
               (exists fuel2, PoopFucker_do fuel2 q st1 = (s, st2))) \/
  ((exists e, s = Threw e) /\ exists fuel1, PoopFucker_do fuel1 p st = (s, st2)).
Proof.
  induction fuel as [|fuel IH]; intros p q st s st2 Hdo Hs.
  { simpl in Hdo. congruence. }
  destruct p as [|[value|value] rest].
  - left. exists st. split; [by exists 1%nat|by exists (S fuel)].
  - simpl app in Hdo. rewrite PoopFucker_do_S in Hdo.
    destruct (exec value st) as [st'|e] eqn:Hexec.
    + destruct (IH _ _ _ _ _ Hdo Hs) as [(st1 & [f1 H1] & H2)|(He & [f1 H1])].
      * left. exists st1. split; [|done]. exists (S f1).
        by rewrite PoopFucker_do_S, Hexec.
      * right. split; [done|]. exists (S f1). by rewrite PoopFucker_do_S, Hexec.
    + injection Hdo as <- <-. right. split; [by eexists|]. exists 1%nat.
      by rewrite PoopFucker_do_S, Hexec.
  - simpl app in Hdo. rewrite PoopFucker_do_S in Hdo.
    destruct (nonzero st) eqn:Htest.
    + destruct (PoopFucker_do fuel value st) as [[] st'] eqn:Hbody.
      * change (Loop value :: rest ++ q) with ((Loop value :: rest) ++ q) in Hdo.
        destruct (IH _ _ _ _ _ Hdo Hs) as [(st1 & [f1 H1] & H2)|(He & [f1 H1])].
        -- left. exists st1. split; [|done]. exists (S (fuel `max` f1)).
           rewrite PoopFucker_do_S, Htest.
           rewrite (PoopFucker_do_mono _ (fuel `max` f1) _ _ _ _ Hbody) by (done || lia).
           apply (PoopFucker_do_mono _ (fuel `max` f1) _ _ _ _ H1); [done|lia].
        -- right. split; [done|]. exists (S (fuel `max` f1)).
           rewrite PoopFucker_do_S, Htest.
           rewrite (PoopFucker_do_mono _ (fuel `max` f1) _ _ _ _ Hbody) by (done || lia).
           apply (PoopFucker_do_mono _ (fuel `max` f1) _ _ _ _ H1); [done|lia].
      * injection Hdo as <- <-. right. split; [by eexists|]. exists (S fuel).
        by rewrite PoopFucker_do_S, Htest, Hbody.
      * injection Hdo as <- <-. done.
    + destruct (IH _ _ _ _ _ Hdo Hs) as [(st1 & [f1 H1] & H2)|(He & [f1 H1])].
      * left. exists st1. split; [|done]. exists (S f1).
        by rewrite PoopFucker_do_S, Htest.
      * right. split; [done|]. exists (S f1). by rewrite PoopFucker_do_S, Htest.
Qed.

(** [n] times the same value instruction on an integer cell. *)
Lemma run_value_instructions value d n : forall st z fuel rest,
  (value = INCREMENT_VALUE /\ d = 1) \/ (value = DECREMENT_VALUE /\ d = -1) ->
  mem_get (memory st) (pointer st) = JNum z ->
  exists st',
    PoopFucker_do (n + fuel) (replicate n (Simple value) ++ rest) st
      = PoopFucker_do fuel rest st' /\
    mem_get (memory st') (pointer st') = JNum (z + Z.of_nat n * d) /\
    pointer st' = pointer st /\ stdout st' = stdout st.
Proof.
  induction n as [|n IH]; intros st z fuel rest Hvalue Hcell.
  - exists st. split; [done|]. split; [|done]. rewrite Hcell. f_equal. lia.
  - simpl replicate. simpl app. rewrite Nat.add_succ_l, PoopFucker_do_S.
    destruct Hvalue as [[-> ->]|[-> ->]].
    + set (st1 := {| pointer := pointer st;
                     memory := mem_set (memory st) (pointer st)
                                 (incr (mem_get (memory st) (pointer st)));
                     stdout := stdout st; warnings := warnings st |}).
      change (exec INCREMENT_VALUE st) with (@inl runtime error st1).
      destruct (IH st1 (z + 1) fuel rest) as (st' & Hdo & Hz & Hptr & Hout); [by left|..].
      { simpl. by rewrite mem_get_set, Hcell. }
      exists st'. split; [done|]. split; [|done]. rewrite Hz. f_equal. lia.
    + set (st1 := {| pointer := pointer st;
                     memory := mem_set (memory st) (pointer st)
                                 (decr (mem_get (memory st) (pointer st)));
                     stdout := stdout st; warnings := warnings st |}).
      change (exec DECREMENT_VALUE st) with (@inl runtime error st1).
      destruct (IH st1 (z - 1) fuel rest) as (st' & Hdo & Hz & Hptr & Hout); [by right|..].
      { simpl. by rewrite mem_get_set, Hcell. }
      exists st'. split; [done|]. split; [|done]. rewrite Hz. f_equal. lia.
Qed.

(** What is stored under a negative key is never a number: every
    instruction keeps it so. *)
Lemma exec_props_nan value st st' :
  (forall k v, props (memory st) !! k = Some v -> v = JNaN) ->
  exec value st = inl st' ->
  forall k v, props (memory st') !! k = Some v -> v = JNaN.
Proof.
  intros Hnan Hexec.
  assert (Hset : forall v0, (v0 = JNaN \/ 0 <= pointer st) ->
            forall k v, props (mem_set (memory st) (pointer st) v0) !! k = Some v ->
                        v = JNaN).
  { intros v0 Hv0 k v. unfold mem_set.
    destruct (0 <=? pointer st) eqn:Hp.
    - destruct (_ <? _)%nat; simpl; apply Hnan.
    - simpl. apply Z.leb_gt in Hp. destruct Hv0 as [->|?]; [|lia].
      destruct (decide (pointer st = k)) as [<-|Hk].
      + rewrite lookup_insert_eq. by intros [= <-].
      + rewrite lookup_insert_ne by done. apply Hnan. }
  assert (Hread : 0 <= pointer st \/
            mem_get (memory st) (pointer st) = JNaN \/
            mem_get (memory st) (pointer st) = JUndefined).
  { destruct (decide (0 <= pointer st)) as [|Hneg]; [by left|right].
    unfold mem_get. destruct (0 <=? pointer st) eqn:Hp; [apply Z.leb_le in Hp; lia|].
    destruct (props (memory st) !! pointer st) as [v|] eqn:Hv; [left|by right].
    simpl. by apply (Hnan (pointer st)). }
  unfold exec in Hexec. repeat case_decide; try done; injection Hexec as <-; simpl;
    try exact Hnan.
  - match goal with H : mem_get _ _ = JNull |- _ => rename H into Hnull end.
    unfold mem_push, mem_set. simpl.
    destruct (0 <=? pointer st + 1) eqn:Hp.
    + destruct (_ <? _)%nat; simpl; apply Hnan.
    + exfalso. unfold mem_get in Hnull. rewrite Hp in Hnull.
      destruct (props (memory st) !! (pointer st + 1)) as [v|] eqn:Hv; [|done].
      simpl in Hnull. subst v. by specialize (Hnan _ _ Hv).
  - apply Hset. destruct Hread as [?|[->| ->]]; [by right|by left..].
  - apply Hset. destruct Hread as [?|[->| ->]]; [by right|by left..].
Qed.

Lemma PoopFucker_do_props_nan fuel : forall instructions st s st',
  (forall k v, props (memory st) !! k = Some v -> v = JNaN) ->
  PoopFucker_do fuel instructions st = (s, st') ->
  forall k v, props (memory st') !! k = Some v -> v = JNaN.
Proof.
  induction fuel as [|fuel IH]; intros instructions st s st' Hnan Hdo.
  { simpl in Hdo. by injection Hdo as <- <-. }
  rewrite PoopFucker_do_S in Hdo.
  destruct instructions as [|[value|value] rest].
  - by injection Hdo as <- <-.
  - destruct (exec value st) as [st1|e] eqn:Hexec.
    + by apply (IH _ _ _ _ (exec_props_nan _ _ _ Hnan Hexec) Hdo).
    + by injection Hdo as <- <-.
  - destruct (nonzero st).
    + destruct (PoopFucker_do fuel value st) as [s1 st1] eqn:Hbody.
      pose proof (IH _ _ _ _ Hnan Hbody) as Hnan1.
      destruct s1; [by apply (IH _ _ _ _ Hnan1 Hdo)|by injection Hdo as <- <-..].
    + by apply (IH _ _ _ _ Hnan Hdo).
Qed.

End ExecutorMore.

Import ExecutorFacts ExecutorMore.

(** X11.  Output is only ever appended: whatever the program, the
    runtime it starts from and the point where the run ends, throws or
    is cut, what had been written before is the beginning of what is
    written after. *)
Theorem output_is_append_only fuel instructions st :
  stdout st `prefix_of` stdout (PoopFucker_do fuel instructions st).2.
Proof. apply PoopFucker_do_stdout. Qed.

(** X12.  Running two programs in a row is running the first and, if it
    finishes, the second from the runtime the first left: the row ends
    with [s] in [st2] exactly when the first finishes in some runtime
    from which the second ends so, or the first itself throws [s] in
    [st2], in which case nothing of the second is run. *)
Theorem programs_compose p q st s st2 :
  s <> OutOfFuel ->
  (exists fuel, PoopFucker_do fuel (p ++ q) st = (s, st2)) <->
  (exists st1, (exists fuel1, PoopFucker_do fuel1 p st = (Finished, st1)) /\
               (exists fuel2, PoopFucker_do fuel2 q st1 = (s, st2))) \/
  ((exists e, s = Threw e) /\ exists fuel1, PoopFucker_do fuel1 p st = (s, st2)).
Proof.
  intros Hs. split.
  - intros [fuel Hdo]. by apply (PoopFucker_do_app_inv fuel).
  - intros [(st1 & [fuel1 H1] & [fuel2 H2])|([e ->] & [fuel1 H1])].
    + by apply (PoopFucker_do_app_finished fuel1 p q st st1 fuel2).
    + by apply (PoopFucker_do_app_threw fuel1 p q st e st2).
Qed.

Lemma programs_compose_witness :
  (exists fuel,
     PoopFucker_do fuel ([Simple INCREMENT_VALUE] ++ [Simple OUT]) fresh
       = (Finished, (PoopFucker_do 3 [Simple INCREMENT_VALUE; Simple OUT] fresh).2)) <->
  (exists st1,
     (exists fuel1, PoopFucker_do fuel1 [Simple INCREMENT_VALUE] fresh = (Finished, st1)) /\
     (exists fuel2, PoopFucker_do fuel2 [Simple OUT] st1
                    = (Finished, (PoopFucker_do 3 [Simple INCREMENT_VALUE; Simple OUT] fresh).2)))
  \/
  ((exists e, Finished = Threw e) /\
   exists fuel1, PoopFucker_do fuel1 [Simple INCREMENT_VALUE] fresh
                 = (Finished, (PoopFucker_do 3 [Simple INCREMENT_VALUE; Simple OUT] fresh).2)).
Proof.
  apply (programs_compose [Simple INCREMENT_VALUE] [Simple OUT] fresh Finished).
  discriminate.
Defined.

(** X13.  A loop never finishes when some property of the runtime holds
    where it is entered, is kept by every complete run of its body, and
    implies that the cell under the pointer is not zero: for no fuel
    does the run of the loop, or of anything behind it, finish. *)
Theorem loop_never_finishes_under_invariant (I : runtime -> Prop) value rest st :
  (forall st0, I st0 -> nonzero st0 = true) ->
  (forall st0 fuel st1,
     I st0 -> PoopFucker_do fuel value st0 = (Finished, st1) -> I st1) ->
  I st ->
  forall fuel, (PoopFucker_do fuel (Loop value :: rest) st).1 <> Finished.
Proof.
  intros Htest Hkeep Hst fuel. revert st Hst.
  induction fuel as [|fuel IH]; intros st Hst; [done|].
  rewrite PoopFucker_do_S, (Htest st Hst).
  destruct (PoopFucker_do fuel value st) as [[] st1] eqn:Hbody; [|done..].
  apply IH. by apply (Hkeep st fuel).
Qed.

Lemma loop_never_finishes_under_invariant_witness :
  (PoopFucker_do 1000 (Loop [Simple INCREMENT_VALUE] :: [Simple OUT]) cell3).1
    <> Finished.
Proof.
  apply (loop_never_finishes_under_invariant
           (fun st => exists z, 0 < z /\ mem_get (memory st) (pointer st) = JNum z)).
  - intros st0 (z & Hz & Hcell). unfold nonzero. rewrite Hcell.
    apply bool_decide_eq_true. intros [= ?]. lia.
  - intros st0 [|[|fuel]] st1 (z & Hz & Hcell); [done|done|].
    intros [= <-]. exists (z + 1). split; [lia|]. simpl. by rewrite mem_get_set, Hcell.
  - exists 3. split; [lia|reflexivity].
Defined.

(** X14.  Counting: on a fresh runtime, [n] times IncrementValue and
    then Output finish and write one character, of code [n] modulo
    65536; [n] times DecrementValue and then Output write the character
    of code [-n] modulo 65536, so one decrement writes U+FFFF. *)
Theorem counting_then_output n :
  (PoopFucker_do (n + 2) (replicate n (Simple INCREMENT_VALUE) ++ [Simple OUT]) fresh).1
    = Finished /\
  stdout (PoopFucker_do (n + 2) (replicate n (Simple INCREMENT_VALUE) ++ [Simple OUT])
            fresh).2 = [Z.of_nat n mod 65536] /\
  (PoopFucker_do (n + 2) (replicate n (Simple DECREMENT_VALUE) ++ [Simple OUT]) fresh).1
    = Finished /\
  stdout (PoopFucker_do (n + 2) (replicate n (Simple DECREMENT_VALUE) ++ [Simple OUT])
            fresh).2 = [(- Z.of_nat n) mod 65536].
Proof.
  destruct (run_value_instructions INCREMENT_VALUE 1 n fresh 0 2 [Simple OUT])
    as (st1 & -> & Hz1 & _ & Hout1); [by left|done|].
  destruct (run_value_instructions DECREMENT_VALUE (-1) n fresh 0 2 [Simple OUT])
    as (st2 & -> & Hz2 & _ & Hout2); [by right|done|].
  simpl. rewrite Hz1, Hz2, Hout1, Hout2. simpl.
  repeat split; do 2 f_equal; lia.
Qed.

Example output_letter_A :
  stdout (PoopFucker_do 67 (replicate 65 (Simple INCREMENT_VALUE) ++ [Simple OUT]) fresh).2
    = [0x41].
Proof. reflexivity. Qed.

(** X15.  Left of the tape.  DecrementPointer is not checked, so a run
    from the fresh runtime can leave the pointer negative.  There the
    slot never holds a number: the test of a loop holds, Output writes
    the character of code 0, and IncrementValue and DecrementValue
    leave the elements of the array as they are and the slot
    not-a-number, so the test still holds after them. *)
Theorem left_of_the_tape fuel instructions s st :
  PoopFucker_do fuel instructions fresh = (s, st) ->
  pointer st < 0 ->
  nonzero st = true /\
  (exists st', exec OUT st = inl st' /\ stdout st' = stdout st ++ [0]) /\
  (forall value,
     value = INCREMENT_VALUE \/ value = DECREMENT_VALUE ->
     exists st',
       exec value st = inl st' /\
       elems (memory st') = elems (memory st) /\
       mem_get (memory st') (pointer st') = JNaN /\
       nonzero st' = true).
Proof.
  intros Hdo Hneg.
  assert (Hnan : forall k v, props (memory st) !! k = Some v -> v = JNaN).
  { apply (PoopFucker_do_props_nan fuel instructions fresh s st); [|done].
    intros k v. unfold fresh. simpl. by rewrite lookup_empty. }
  assert (Hread : mem_get (memory st) (pointer st) = JNaN \/
                  mem_get (memory st) (pointer st) = JUndefined).
  { unfold mem_get. destruct (0 <=? pointer st) eqn:Hp; [apply Z.leb_le in Hp; lia|].
    destruct (props (memory st) !! pointer st) as [v|] eqn:Hv; [left|by right].
    simpl. by apply (Hnan (pointer st)). }
  assert (Helems : forall v, elems (mem_set (memory st) (pointer st) v) = elems (memory st)).
  { intros v. unfold mem_set.
    by destruct (0 <=? pointer st) eqn:Hp; [apply Z.leb_le in Hp; lia|]. }
  split; [|split].
  - unfold nonzero. apply bool_decide_eq_true. by destruct Hread as [-> | ->].
  - eexists. split; [reflexivity|]. simpl. by destruct Hread as [-> | ->].
  - intros value [-> | ->]; eexists; (split; [reflexivity|]); simpl;
      rewrite Helems, mem_get_set; unfold nonzero; simpl; rewrite mem_get_set;
      by destruct Hread as [-> | ->].
Qed.

Lemma left_of_the_tape_witness :
  nonzero (PoopFucker_do 2 [Simple DECREMENT_POINTER] fresh).2 = true /\
  (exists st', exec OUT (PoopFucker_do 2 [Simple DECREMENT_POINTER] fresh).2 = inl st' /\
               stdout st' = stdout (PoopFucker_do 2 [Simple DECREMENT_POINTER] fresh).2 ++ [0]) /\
  (forall value,
     value = INCREMENT_VALUE \/ value = DECREMENT_VALUE ->
     exists st',
       exec value (PoopFucker_do 2 [Simple DECREMENT_POINTER] fresh).2 = inl st' /\
       elems (memory st') = elems (memory (PoopFucker_do 2 [Simple DECREMENT_POINTER] fresh).2) /\
       mem_get (memory st') (pointer st') = JNaN /\
       nonzero st' = true).
Proof.
  apply (left_of_the_tape 2 [Simple DECREMENT_POINTER] Finished).
  - reflexivity.
  - reflexivity.
Defined.



(** ** From the text to the run *)

Module DriverFacts.
Import Lexer Parser Executor Driver Script ParserFacts ExecutorFacts.


(** The script throws BadExtension only from its extension test. *)
Lemma main_bad_extension (extname : list Z -> list Z)
    (readFileSync : list Z -> option (list Z)) lex_fuel do_fuel argv out :
  main extname readFileSync lex_fuel do_fuel argv = Failed BadExtension out ->
  exists filename,
    argv !! 2%nat = Some filename /\ extname filename = [0x70; 0x6F; 0x6F; 0x70].
Proof.
  unfold main. destruct (argv !! 2%nat) as [filename|]; [|done].
  destruct (decide (extname filename = [112; 111; 111; 112])) as [Hext|_];
    [by exists filename|].
  destruct (readFileSync filename) as [code|]; [|done].
  by destruct (runCode lex_fuel do_fuel code) as [[]|[]|[] st].
Qed.

End DriverFacts.

Import Script DriverFacts.

(** X17.  From the text to the run: a text of white space, comments and
    the tokens that spell a tree with matched loops is run as that
    tree, from the fresh runtime.  A text without any token is run as
    the empty program: it finishes in the fresh runtime and writes
    nothing. *)
Theorem text_runs_as_its_tree xs tree lex_fuel do_fuel :
  forallb well_formed xs = true ->
  markers xs = encode tree ->
  parsed_shape tree = true ->
  (length xs < lex_fuel)%nat ->
  runCode lex_fuel do_fuel (render xs)
    = Ran (PoopFucker_do do_fuel tree fresh).1 (PoopFucker_do do_fuel tree fresh).2 /\
  (tree = [] -> (0 < do_fuel)%nat ->
   runCode lex_fuel do_fuel (render xs) = Ran Finished fresh /\
   written (runCode lex_fuel do_fuel (render xs)) = []).
Proof.
  intros Hxs Hmarkers Hshape Hfuel.
  assert (Hrun : runCode lex_fuel do_fuel (render xs)
            = Ran (PoopFucker_do do_fuel tree fresh).1 (PoopFucker_do do_fuel tree fresh).2).
  { unfold runCode.
    replace lex_fuel with (length xs + S (lex_fuel - length xs - 1))%nat by lia.
    rewrite <- (app_nil_r (render xs)), tokenize_render_then by done.
    rewrite tokenize_from_S, tokenize_turn_end by (rewrite app_nil_r; lia).
    rewrite Hmarkers, (parse_encode tree Hshape).
    by destruct (PoopFucker_do do_fuel tree fresh). }
  split; [exact Hrun|]. intros -> Hpos. rewrite Hrun.
  destruct do_fuel; [lia|]. done.
Qed.

Lemma text_runs_as_its_tree_witness :
  runCode 9 9 (render [Token mC; Space 0x20; Token mC; Comment [0x78]; Token mA; Token mC])
    = Ran (PoopFucker_do 9 [Simple INCREMENT_VALUE; Simple OUT] fresh).1
          (PoopFucker_do 9 [Simple INCREMENT_VALUE; Simple OUT] fresh).2.
Proof.
  apply (text_runs_as_its_tree
           [Token mC; Space 0x20; Token mC; Comment [0x78]; Token mA; Token mC]
           [Simple INCREMENT_VALUE; Simple OUT] 9 9); try reflexivity.
  simpl. lia.
Defined.



(** X19.  The extension test rejects no file.  [path.extname] gives the
    empty string or a string that starts with a full stop; the script
    compares it with the four letters "poop", without the full stop, so
    for no file name, with or without the extension .poop, does the
    script fail with BadExtension. *)
Theorem extension_test_rejects_nothing (extname : list Z -> list Z)
    (readFileSync : list Z -> option (list Z)) lex_fuel do_fuel argv out :
  (forall filename,
     extname filename = [] \/ exists rest, extname filename = 0x2E :: rest) ->
  main extname readFileSync lex_fuel do_fuel argv <> Failed BadExtension out.
Proof.
  intros Hext Hmain.
  apply main_bad_extension in Hmain as (filename & _ & Hpoop).
  destruct (Hext filename) as [Hnil|[rest Hdot]]; congruence.
Qed.

Lemma extension_test_rejects_nothing_witness :
  main (fun _ => [0x2E; 0x70; 0x6F; 0x6F; 0x70]) (fun _ => Some [0x78]) 9 9
       [[0x6E]; [0x73]; [0x61; 0x2E; 0x70; 0x6F; 0x6F; 0x70]]
    <> Failed BadExtension [].
Proof.
  apply (extension_test_rejects_nothing (fun _ => [0x2E; 0x70; 0x6F; 0x6F; 0x70])).
  intros filename. right. by eexists.
Defined.
